(** * az-storage-cleaner: grouping, retention and deletion

    A shallow embedding of the TypeScript sources of the blob-storage
    cleaner (index.ts, edit.ts, file-writer.ts, the remover utility and
    the FileInfo model) together with the properties of the grouping and
    retention engine.

    Conventions of the embedding:
    - a JavaScript string is a [string]; [indexOf], [substring] and
      [includes] follow the ECMAScript definitions, negative and
      out-of-range arguments included;
    - a [Date] is its [getTime()] value, an integer number of
      milliseconds, and [Date | undefined] is [option Z];
    - arrays are heap objects: a [Map<string, FileInfo[]>] is an
      insertion-ordered list of (key, reference) pairs over a heap of
      arrays, so that in-place updates are visible through every alias;
    - file-system effects are recorded as a trace of events, and each
      operation that can throw is resolved by the [Runtime];
    - [Array.prototype.sort] is the stable sort where the comparator is
      consistent; under the comparator of the excess-only report, which
      is not, the arrangement is the engine's and comes with the
      [Runtime]. *)

From Stdlib Require Import ZArith Ascii String.
From stdpp Require Import base list strings sorting.

Local Open Scope Z_scope.

(** ** ECMAScript primitives *)

(** [String.prototype.indexOf] for a one-character search string: the
    position of the first occurrence, or -1. *)
Fixpoint indexOfFrom (c : ascii) (s : string) (i : Z) : Z :=
  match s with
  | EmptyString => -1
  | String a s' => if Ascii.eqb a c then i else indexOfFrom c s' (i + 1)
  end.

Definition indexOf (s : string) (c : ascii) : Z := indexOfFrom c s 0.

(** [String.prototype.includes] for a one-character search string. *)
Definition includes (s : string) (c : ascii) : bool :=
  negb (indexOf s c =? -1).

(** [String.prototype.substring(start, end)]: both arguments are clamped
    to [0, length] and swapped when start exceeds end. *)
Definition clampIndex (len x : Z) : Z := Z.min (Z.max x 0) len.

Definition substring (s : string) (start fin : Z) : string :=
  let len := Z.of_nat (String.length s) in
  let intStart := clampIndex len start in
  let intEnd := clampIndex len fin in
  let from := Z.min intStart intEnd in
  let to := Z.max intStart intEnd in
  String.substring (Z.to_nat from) (Z.to_nat (to - from)) s.

(** [Array.prototype.slice(start, end)]: a negative index counts from the
    end of the array. *)
Definition relativeIndex (len k : Z) : Z :=
  if k <? 0 then Z.max (len + k) 0 else Z.min k len.

Definition slice {A : Type} (l : list A) (start fin : Z) : list A :=
  let len := Z.of_nat (length l) in
  let k := relativeIndex len start in
  let final := relativeIndex len fin in
  take (Z.to_nat (Z.max (final - k) 0)) (drop (Z.to_nat k) l).

(** [Array.prototype.sort(comparator)] with a consistent comparator.
    ECMAScript requires the sort to be stable and fixes its result
    whenever the comparator is consistent (the result is then the one of
    any stable sort, see [sort_is_the_stable_sort]); a stable insertion
    sort stands for it.  The element [x] is placed in front of the first
    element it does not compare greater than. *)
Fixpoint sortInsert {A : Type} (cmp : A -> A -> Z) (x : A) (l : list A) : list A :=
  match l with
  | [] => [x]
  | y :: l' => if cmp x y <=? 0 then x :: y :: l' else y :: sortInsert cmp x l'
  end.

Definition sort {A : Type} (cmp : A -> A -> Z) (l : list A) : list A :=
  foldr (sortInsert cmp) [] l.

(** Two elements neither of which the comparator puts after the other. *)
Definition comparesEqual {A : Type} (cmp : A -> A -> Z) (x y : A) : bool :=
  (cmp x y <=? 0) && (cmp y x <=? 0).

(** When the comparator is not consistent, ECMAScript leaves the order
    of the sorted array to the engine and only promises a rearrangement
    of the elements.  An engine's arrangement is given as a placement:
    the elements are taken in input order and each one is put at a
    position among those already placed.  Whatever the positions are,
    the result holds the elements of the input, each as often as the
    input does (see [place_perm]); a position past the end appends. *)
Definition insertAt {A : Type} (p : nat) (x : A) (acc : list A) : list A :=
  take p acc ++ x :: drop p acc.

Fixpoint placeFrom {A : Type} (acc : list A) (ps : list nat) (l : list A) : list A :=
  match l with
  | [] => acc
  | x :: l' =>
      match ps with
      | p :: ps' => placeFrom (insertAt p x acc) ps' l'
      | [] => placeFrom (insertAt (length acc) x acc) [] l'
      end
  end.

Definition place {A : Type} (ps : list nat) (l : list A) : list A :=
  placeFrom [] ps l.

(** The placement of a binary insertion sort, the arrangement of the
    sample runtime: the position of an element is found by halving the
    range of the elements already placed, going left when the comparator
    answers below 0 at the middle and right otherwise.  The fuel is the
    number of elements placed, which the halving never exhausts (see
    [searchPosition_fuel]). *)
Fixpoint searchPosition {A : Type} (fuel : nat) (cmp : A -> A -> Z) (x : A)
    (acc : list A) (lo hi : nat) : nat :=
  match fuel with
  | O => lo
  | S fuel' =>
      if (lo <? hi)%nat then
        let mid := ((lo + hi) / 2)%nat in
        match acc !! mid with
        | Some y =>
            if cmp x y <? 0 then searchPosition fuel' cmp x acc lo mid
            else searchPosition fuel' cmp x acc (S mid) hi
        | None => lo
        end
      else lo
  end.

Definition binarySearch {A : Type} (cmp : A -> A -> Z) (acc : list A) (x : A) : nat :=
  searchPosition (length acc) cmp x acc 0 (length acc).

Fixpoint binaryPlacementFrom {A : Type} (cmp : A -> A -> Z) (acc l : list A) : list nat :=
  match l with
  | [] => []
  | x :: l' =>
      let p := binarySearch cmp acc x in
      p :: binaryPlacementFrom cmp (insertAt p x acc) l'
  end.

Definition binaryPlacement {A : Type} (cmp : A -> A -> Z) (l : list A) : list nat :=
  binaryPlacementFrom cmp [] l.

(** ** models/Fileinfo.ts *)

Record FileInfo : Type := mkFileInfo {
  name : string;
  lastModified : option Z
}.

(** An item of [listBlobsFlat()]: only the two properties the program
    reads. *)
Record BlobItem : Type := mkBlobItem {
  blob_name : string;
  blob_lastModified : option Z
}.

(** ** index.ts: key derivation and earliest date *)

Definition getGroupKey (filename : string) : string :=
  let key := filename in
  let firstDotIndex := indexOf key "."%char in
  let firstPart := substring key 0 firstDotIndex in
  firstPart.

(** One round of the loop of [findEarliestDateInGroup]. *)
Definition earliestStep (earliestDate : option Z) (file : FileInfo) : option Z :=
  match lastModified file with
  | Some t =>
      match earliestDate with
      | None => Some t
      | Some e => if t <? e then Some t else Some e
      end
  | None => earliestDate
  end.

Definition findEarliestDateInGroup (files : list FileInfo) : option Z :=
  foldl earliestStep None files.

(** ** Heap of arrays and insertion-ordered Map *)

Abbreviation Ref := nat (only parsing).
Abbreviation Heap := (list (list FileInfo)) (only parsing).
Abbreviation JsMap := (list (string * nat)) (only parsing).

Definition deref (h : Heap) (r : Ref) : list FileInfo := default [] (h !! r).

(** [Map.prototype.get] *)
Fixpoint mapGet (m : JsMap) (k : string) : option Ref :=
  match m with
  | [] => None
  | (k', r) :: m' => if String.eqb k' k then Some r else mapGet m' k
  end.

(** [Map.prototype.has] *)
Definition mapHas (m : JsMap) (k : string) : bool :=
  match mapGet m k with Some _ => true | None => false end.

(** [Map.prototype.set]: an existing key keeps its position, a new key is
    appended. *)
Fixpoint mapSet (m : JsMap) (k : string) (r : Ref) : JsMap :=
  match m with
  | [] => [(k, r)]
  | (k', r') :: m' =>
      if String.eqb k' k then (k', r) :: m' else (k', r') :: mapSet m' k r
  end.

(** [array.push(x)] on the array behind a reference. *)
Definition heapPush (h : Heap) (r : Ref) (x : FileInfo) : Heap :=
  alter (fun a => a ++ [x]) r h.

(** The Map read through the heap: each key with the current contents of
    its array. *)
Definition contents (h : Heap) (m : JsMap) : list (string * list FileInfo) :=
  (fun e => (e.1, deref h e.2)) <$> m.

(** ** index.ts: listAndGroupContainerFiles *)

Record GroupState : Type := mkGroupState {
  groupedFiles : JsMap;
  gheap : Heap;
  totalFilesConsidered : nat;
  nestedFileCount : nat
}.

(** The body of the [for await] loop over the listing. *)
Definition groupStep (st : GroupState) (blob : BlobItem) : GroupState :=
  let total := S (totalFilesConsidered st) in
  if includes (blob_name blob) "/"%char then
    mkGroupState (groupedFiles st) (gheap st) total (S (nestedFileCount st))
  else
    let groupKey := getGroupKey (blob_name blob) in
    let fileInfo := mkFileInfo (blob_name blob) (blob_lastModified blob) in
    let '(m, h) :=
      if mapHas (groupedFiles st) groupKey then (groupedFiles st, gheap st)
      else (mapSet (groupedFiles st) groupKey (length (gheap st)), gheap st ++ [[]]) in
    let h' := match mapGet m groupKey with
              | Some r => heapPush h r fileInfo
              | None => h
              end in
    mkGroupState m h' total (nestedFileCount st).

Definition groupLoop (blobs : list BlobItem) : GroupState :=
  foldl groupStep (mkGroupState [] [] 0%nat 0%nat) blobs.

(** The environment of a run: the two variables read from the process
    environment and what the storage service answers.  The listing is
    [None] when the service call or the iteration throws; the container
    name is only rewritten ("web" to "$web", "log" to "$log") before it is
    handed to the service, which is the service's answer here. *)
Record Environment : Type := mkEnvironment {
  connectionString : option string;
  containerName : option string;
  containerExists : bool;
  listBlobsFlat : option (list BlobItem)
}.

(** A string (or undefined) used as a condition. *)
Definition truthy (s : option string) : bool :=
  match s with
  | Some s' => negb (String.eqb s' "")
  | None => false
  end.

Definition listAndGroupContainerFiles (env : Environment) : option GroupState :=
  if negb (truthy (connectionString env)) then None
  else if negb (truthy (containerName env)) then None
  else if negb (containerExists env) then None
  else match listBlobsFlat env with
       | Some blobs => Some (groupLoop blobs)
       | None => None
       end.

(** ** index.ts: reorderAndSaveGroupedFiles and saveEarliestFileRecords *)

(** What the run depends on outside the program: the locale's string
    collation, whether the output directory is there, which file-system
    operations throw, and how the engine arranges an array it sorts
    with a given comparator. *)
Record Runtime : Type := mkRuntime {
  localeCompare : string -> string -> Z;
  outputDirExists : bool;
  mkdirOk : bool;
  writeOk : string -> bool;
  sortPlacement : (FileInfo -> FileInfo -> Z) -> list FileInfo -> list nat
}.

(** [Array.prototype.sort(comparator)] as the engine of the run performs
    it, for a comparator that need not be consistent. *)
Definition engineSort (rt : Runtime) (cmp : FileInfo -> FileInfo -> Z)
    (l : list FileInfo) : list FileInfo :=
  place (sortPlacement rt cmp l) l.

(** What is written to a file, before rendering: the text reports keep
    their records, the exports their rows. *)
Inductive Content : Type :=
  | GroupReport (groupKey : string) (earliest : option Z) (files : list FileInfo)
  | CsvExport (rows : list FileInfo)
  | JsonExport (rows : list FileInfo)
  | EarliestReport (files : list FileInfo).

Inductive Event : Type :=
  | Mkdir (dir : string)
  | WriteFile (path : string) (content : Content)
  | ErrorLogged.

(** The comparator given to [sort] for the groups; it reads the arrays
    through the heap. *)
Definition compareEarliest (earliestA earliestB : option Z) : Z :=
  match earliestA, earliestB with
  | None, None => 0
  | None, Some _ => 1
  | Some _, None => -1
  | Some ta, Some tb => ta - tb
  end.

Definition compareGroups (h : Heap) (a b : string * Ref) : Z :=
  compareEarliest (findEarliestDateInGroup (deref h a.2))
                  (findEarliestDateInGroup (deref h b.2)).

(** The comparator given to [sort] for the records of a group. *)
Definition compareNames (rt : Runtime) (a b : FileInfo) : Z :=
  localeCompare rt (name a) (name b).

(** The comparator given to [sort] in [saveEarliestFileRecords].  It
    answers 0 as soon as one of the two dates is absent, so it is not
    consistent on records with and without dates; the array is sorted by
    [engineSort]. *)
Definition compareLastModified (a b : FileInfo) : Z :=
  match lastModified a, lastModified b with
  | Some ta, Some tb => ta - tb
  | _, _ => 0
  end.

(** [groupKey.replace(/[^a-zA-Z0-9-.]/g, '_')] *)
Definition safeChar (c : ascii) : bool :=
  let n := nat_of_ascii c in
  ((97 <=? n) && (n <=? 122))%nat || ((65 <=? n) && (n <=? 90))%nat
  || ((48 <=? n) && (n <=? 57))%nat || Ascii.eqb c "-" || Ascii.eqb c ".".

Fixpoint sanitize (s : string) : string :=
  match s with
  | EmptyString => EmptyString
  | String c s' => String (if safeChar c then c else "_"%char) (sanitize s')
  end.

(** [path.join(outputDir, `${safeGroupKey}.txt`)] with outputDir
    './output': the last segment holds no separator and ends in '.txt',
    so joining only normalises the leading './'. *)
Definition groupReportPath (groupKey : string) : string :=
  ("output/" ++ sanitize groupKey ++ ".txt")%string.

Definition csvPath : string := "./output/alldata.csv".
Definition jsonPath : string := "./output/alldata.json".
Definition earliestPath : string := "output/earliest_totals.txt".

Record SaveState : Type := mkSaveState {
  sheap : Heap;
  earliestTotals : list FileInfo;
  alldata : list FileInfo;
  filesSavedCount : nat;
  trace : list Event
}.

(** [Bun.write]: the event is recorded when the write succeeds; [None]
    stands for a thrown error. *)
Definition bunWrite (rt : Runtime) (path : string) (c : Content)
    (t : list Event) : option (list Event) :=
  if writeOk rt path then Some (t ++ [WriteFile path c]) else None.

(** The [for ... of sortedGroupEntries] loop.  The boolean tells whether the
    loop ran to its end ([true]) or an error was thrown ([false]). *)
Fixpoint saveGroups (rt : Runtime) (entries : list (string * Ref))
    (s : SaveState) : SaveState * bool :=
  match entries with
  | [] => (s, true)
  | (groupKey, r) :: rest =>
      let filesInGroup := deref (sheap s) r in
      if (length filesInGroup <? 3)%nat then saveGroups rt rest s
      else
        let filesToSave := slice filesInGroup 0 (-2) in
        let earliestTotals' :=
          if (0 <? length filesToSave)%nat
          then earliestTotals s ++ slice filesInGroup 0 (-2)
          else earliestTotals s in
        let outputFilePath := groupReportPath groupKey in
        let earliest := findEarliestDateInGroup filesInGroup in
        let sorted := sort (compareNames rt) filesInGroup in
        let heap' := <[r := sorted]> (sheap s) in
        let alldata' := alldata s ++ sorted in
        match bunWrite rt outputFilePath (GroupReport groupKey earliest sorted) (trace s) with
        | Some t' =>
            saveGroups rt rest
              (mkSaveState heap' earliestTotals' alldata' (S (filesSavedCount s)) t')
        | None =>
            (mkSaveState heap' earliestTotals' alldata' (filesSavedCount s) (trace s), false)
        end
  end.

(** file-writer.ts *)
Definition writeToCsv (rt : Runtime) (fileInfo : list FileInfo)
    (t : list Event) : option (list Event) :=
  bunWrite rt csvPath (CsvExport fileInfo) t.

Definition writeToJson (rt : Runtime) (fileInfo : list FileInfo)
    (t : list Event) : option (list Event) :=
  bunWrite rt jsonPath (JsonExport fileInfo) t.

Definition saveEarliestFileRecords (rt : Runtime) (earliestTotals : list FileInfo)
    (t : list Event) : option (list Event) :=
  if (0 <? length earliestTotals)%nat then
    let sorted := engineSort rt compareLastModified earliestTotals in
    bunWrite rt earliestPath (EarliestReport sorted) t
  else Some t.

(** The part of the [try] block after the loop: the three awaited
    writes, in order.  The result holds the events up to the point
    reached and tells whether the block ran to its end ([true]) or one of
    the writes threw ([false]); a write that throws leaves the files
    written before it in place. *)
Definition saveAggregates (rt : Runtime) (s : SaveState) : list Event * bool :=
  let exports :=
    if (0 <? length (alldata s))%nat then
      match writeToCsv rt (alldata s) (trace s) with
      | Some t1 =>
          match writeToJson rt (alldata s) t1 with
          | Some t2 => (t2, true)
          | None => (t1, false)
          end
      | None => (trace s, false)
      end
    else (trace s, true) in
  let '(t2, exported) := exports in
  if exported then
    match saveEarliestFileRecords rt (earliestTotals s) t2 with
    | Some t3 => (t3, true)
    | None => (t2, false)
    end
  else (t2, false).

(** The result of the saving phase: the heap as the phase leaves it and
    the events it produced. *)
Record SaveResult : Type := mkSaveResult {
  finalHeap : Heap;
  events : list Event
}.

(** [Array.from(groupedFiles.entries()).sort(...)]: the entries keep the
    references of the Map's arrays. *)
Definition sortedGroupEntries (h : Heap) (groupedFiles : JsMap) : list (string * Ref) :=
  sort (compareGroups h) groupedFiles.

Definition reorderAndSaveGroupedFiles (rt : Runtime) (groupedFiles : JsMap)
    (h : Heap) : SaveResult :=
  let created :=
    if outputDirExists rt then Some []
    else if mkdirOk rt then Some [Mkdir "./output"] else None in
  match created with
  | None => mkSaveResult h [ErrorLogged]
  | Some t0 =>
      let '(s, completed) :=
        saveGroups rt (sortedGroupEntries h groupedFiles) (mkSaveState h [] [] 0%nat t0) in
      if completed then
        let '(t, finished) := saveAggregates rt s in
        mkSaveResult (sheap s) (if finished then t else t ++ [ErrorLogged])
      else mkSaveResult (sheap s) (trace s ++ [ErrorLogged])
  end.

(** [main] *)
Definition main (rt : Runtime) (env : Environment) : option SaveResult :=
  match listAndGroupContainerFiles env with
  | Some grouped =>
      Some (reorderAndSaveGroupedFiles rt (groupedFiles grouped) (gheap grouped))
  | None => None
  end.

(** ** remover: removeAzFilesFromContainer *)

Section Remover.
(** The storage service as the deletion utility sees it: a state and the
    effect of one [blobClient.delete()], which either succeeds or
    throws. *)
Variable Service : Type.
Variable blobDelete : string -> string -> Service -> Service * bool.

Inductive RemoverEvent : Type :=
  | DeleteAttempted (file : string)
  | LogDeleted (file : string)
  | LogError (file : string).

(** One round of the loop: the attempt, then the log line of the [try]
    or of the [catch]. *)
Definition removeStep (containerName : string)
    (st : Service * list RemoverEvent) (file : string)
    : Service * list RemoverEvent :=
  let '(svc, out) := st in
  let '(svc', ok) := blobDelete containerName file svc in
  (svc', out ++ [DeleteAttempted file; if ok then LogDeleted file else LogError file]).

Definition removeAzFilesFromContainer (containerName : string)
    (azFiles : list string) (svc : Service) : Service * list RemoverEvent :=
  foldl (removeStep containerName) (svc, []) azFiles.

(** The service after one [delete()] per name, in the order given. *)
Definition deleteEach (containerName : string) (files : list string)
    (svc : Service) : Service :=
  foldl (fun s file => (blobDelete containerName file s).1) svc files.

(** What the loop prints for a list of names: per name the attempt and
    the line of its outcome, each deletion acting on the service the
    previous ones left. *)
Fixpoint removalLog (containerName : string) (files : list string)
    (svc : Service) : list RemoverEvent :=
  match files with
  | [] => []
  | file :: rest =>
      let '(svc', ok) := blobDelete containerName file svc in
      DeleteAttempted file :: (if ok then LogDeleted file else LogError file)
        :: removalLog containerName rest svc'
  end.
End Remover.

(** The names whose deletion was attempted, in order. *)
Definition attemptedFiles (out : list RemoverEvent) : list string :=
  flat_map (fun ev => match ev with DeleteAttempted f => [f] | _ => [] end) out.

(** A sample service: a container is the list of its blob names, and
    deleting a name that is not there throws. *)
Definition sampleDelete (containerName : string) (file : string)
    (svc : list string) : list string * bool :=
  if bool_decide (file ∈ svc)
  then (filter (fun f => negb (String.eqb f file)) svc, true)
  else (svc, false).

(** A sample runtime for concrete runs: collation by code unit, an
    existing output directory, no failing write, and arrays sorted by
    binary insertion. *)
Fixpoint codeUnitCompare (a b : string) : Z :=
  match a, b with
  | EmptyString, EmptyString => 0
  | EmptyString, String _ _ => -1
  | String _ _, EmptyString => 1
  | String x a', String y b' =>
      if Ascii.eqb x y then codeUnitCompare a' b'
      else Z.of_nat (nat_of_ascii x) - Z.of_nat (nat_of_ascii y)
  end.

Definition sampleRuntime : Runtime :=
  mkRuntime codeUnitCompare true true (fun _ => true) binaryPlacement.

(** No file-system operation of the run throws. *)
Definition ioSucceeds (rt : Runtime) : Prop :=
  (outputDirExists rt = true \/ mkdirOk rt = true) /\
  forall path, writeOk rt path = true.

(** A file is written during the run. *)
Definition written (path : string) (evs : list Event) : Prop :=
  exists c, WriteFile path c ∈ evs.

(** A group of the Map qualifies for retention when it holds at least
    three records. *)
Definition qualifies (h : Heap) (e : string * Ref) : bool :=
  negb (length (deref h e.2) <? 3)%nat.

(** The earliest date of a group of the Map. *)
Definition earliestOf (h : Heap) (e : string * Ref) : option Z :=
  findEarliestDateInGroup (deref h e.2).

(** Ascending order of optional dates, an absent date last. *)
Definition earliestLe (a b : option Z) : Prop :=
  match a, b with
  | Some x, Some y => x <= y
  | _, None => True
  | None, Some _ => False
  end.




(** The record made of a listed blob, and the blobs that are not nested. *)
Definition toFileInfo (blob : BlobItem) : FileInfo :=
  mkFileInfo (blob_name blob) (blob_lastModified blob).

Definition isNested (blob : BlobItem) : bool := includes (blob_name blob) "/".

Definition isRoot (blob : BlobItem) : bool := negb (isNested blob).

(** The records of the listing that belong under a key: the root-level
    blobs with that key, in listing order. *)
Definition hasKey (k : string) (blob : BlobItem) : bool :=
  isRoot blob && String.eqb (getGroupKey (blob_name blob)) k.

Definition groupOf (k : string) (blobs : list BlobItem) : list FileInfo :=
  toFileInfo <$> filter (hasKey k) blobs.

(** What the grouping loop maintains after having read [blobs]. *)
Definition groupingInv (blobs : list BlobItem) (st : GroupState) : Prop :=
  totalFilesConsidered st = length blobs /\
  nestedFileCount st = length (filter isNested blobs) /\
  NoDup (groupedFiles st).*1 /\
  NoDup (groupedFiles st).*2 /\
  Forall (fun r => (r < length (gheap st))%nat) (groupedFiles st).*2 /\
  (forall k r, (k, r) ∈ groupedFiles st ->
     deref (gheap st) r = groupOf k blobs /\ groupOf k blobs <> []) /\
  (forall blob, blob ∈ blobs -> isRoot blob = true ->
     getGroupKey (blob_name blob) ∈ (groupedFiles st).*1) /\
  concat (contents (gheap st) (groupedFiles st)).*2 ≡ₚ toFileInfo <$> filter isRoot blobs.

(** Every record of the Map is filed under the key its name derives. *)
Definition groupKeyed (h : Heap) (m : JsMap) : Prop :=
  forall k r x, (k, r) ∈ m -> x ∈ deref h r -> getGroupKey (name x) = k.

(** The display order the loop gives a group: untouched when the group is
    skipped, sorted by name otherwise. *)
Definition afterReport (rt : Runtime) (g : string * list FileInfo)
    : string * list FileInfo :=
  (g.1, if (length g.2 <? 3)%nat then g.2 else sort (compareNames rt) g.2).

(** A record of some group of [entries] that qualifies in the heap [h]. *)
Definition fromQualifying (h : Heap) (entries : list (string * Ref)) (x : FileInfo) : Prop :=
  exists e, e ∈ entries /\ qualifies h e = true /\ x ∈ deref h e.2.

(** The per-group report of a group of [entries] that qualifies in [h]. *)
Definition reportOfQualifying (h : Heap) (entries : list (string * Ref)) (ev : Event) : Prop :=
  exists e earliest fs,
    e ∈ entries /\ qualifies h e = true /\
    ev = WriteFile (groupReportPath e.1) (GroupReport e.1 earliest fs).

(** The groups the loop does not skip, each with its records. *)
Definition qualifyingGroups (h : Heap) (entries : list (string * Ref))
    : list (string * list FileInfo) :=
  filter (fun g => negb (length g.2 <? 3)%nat) (contents h entries).

(** The event of the per-group report of a group. *)
Definition groupReportEvent (rt : Runtime) (g : string * list FileInfo) : Event :=
  WriteFile (groupReportPath g.1)
    (GroupReport g.1 (findEarliestDateInGroup g.2) (sort (compareNames rt) g.2)).

(** What the directory check at the start of the phase leaves in the
    trace when it does not throw. *)
Definition directoryEvents (rt : Runtime) : list Event :=
  if outputDirExists rt then [] else [Mkdir "./output"].

(** ** index.ts: the container name handed to the service *)

(** The two rewritings of [containerName] in [listAndGroupContainerFiles]:
    the one after reading the environment and the one inside the [try]. *)
Definition resolveContainerName (containerName : string) : string :=
  let containerName :=
    if String.eqb containerName "web" then "$web"%string else containerName in
  if String.eqb containerName "web" || String.eqb containerName "log"
  then ("$" ++ containerName)%string
  else containerName.

(** ** The lister (index.ts of the first version): listContainerFiles *)

(** The lines the lister prints that tell what it did. *)
Inductive ListerLine : Type :=
  | MissingConnectionString
  | MissingContainerName
  | ContainerNotFound
  | FileLine (blobName : string)
  | NoFilesFound
  | TotalFilesListed (fileCount : nat)
  | ListingComplete
  | UnexpectedError.

(** One round of the [for await] loop: the name is printed and counted. *)
Definition listStep (st : list ListerLine * nat) (blob : BlobItem)
    : list ListerLine * nat :=
  (st.1 ++ [FileLine (blob_name blob)], S st.2).

(** [existsAnswer] is what [containerClient.exists()] answers, [None] when
    it throws; the listing yields [yielded] and then ends, or throws when
    [throws] is set. *)
Definition listContainerFiles (connectionString containerName : option string)
    (existsAnswer : option bool) (yielded : list BlobItem) (throws : bool)
    : list ListerLine :=
  if negb (truthy connectionString) then [MissingConnectionString]
  else if negb (truthy containerName) then [MissingContainerName]
  else
    match existsAnswer with
    | None => [UnexpectedError]
    | Some false => [ContainerNotFound]
    | Some true =>
        let '(printed, fileCount) := foldl listStep ([], 0%nat) yielded in
        if throws then printed ++ [UnexpectedError]
        else
          printed ++
          [if (fileCount =? 0)%nat then NoFilesFound else TotalFilesListed fileCount;
           ListingComplete]
    end.

(** The blob names among the printed lines, in order. *)
Definition printedNames (out : list ListerLine) : list string :=
  flat_map (fun l => match l with FileLine n => [n] | _ => [] end) out.

(** ** Vocabulary of the further properties *)

(** Every character of the string passes the test. *)
Fixpoint allChars (p : ascii -> bool) (s : string) : bool :=
  match s with
  | EmptyString => true
  | String c s' => p c && allChars p s'
  end.

(** The content a path holds once the events have happened: that of the
    last write to it. *)
Definition lastWriteStep (path : string) (acc : option Content) (ev : Event)
    : option Content :=
  match ev with
  | WriteFile p c => if String.eqb p path then Some c else acc
  | _ => acc
  end.

Definition lastWrite (path : string) (evs : list Event) : option Content :=
  foldl (lastWriteStep path) None evs.

(** The keys of the per-group reports written, in the order of writing. *)
Definition reportedKeys (evs : list Event) : list string :=
  flat_map (fun ev => match ev with
                      | WriteFile _ (GroupReport k _ _) => [k]
                      | _ => []
                      end) evs.


(** The names the remover reports as deleted, and those it reports as
    failed, in order. *)
Definition loggedDeleted (out : list RemoverEvent) : list string :=
  flat_map (fun ev => match ev with LogDeleted f => [f] | _ => [] end) out.

Definition loggedErrors (out : list RemoverEvent) : list string :=
  flat_map (fun ev => match ev with LogError f => [f] | _ => [] end) out.

(** The Map and heap of a grouping state. *)
Definition groupsOf (st : GroupState) : list (string * list FileInfo) :=
  contents (gheap st) (groupedFiles st).

(** * Properties *)

(** ** Strings *)

Lemma indexOfFrom_range c s k :
  indexOfFrom c s k = -1 \/ k <= indexOfFrom c s k.
Proof.
  revert k. induction s as [|a s IH]; intros k; simpl; [by left|].
  destruct (Ascii.eqb a c); [right; lia|].
  destruct (IH (k + 1)) as [?|?]; [by left | right; lia].
Qed.

Lemma indexOfFrom_absent c s i j :
  0 <= i -> 0 <= j -> indexOfFrom c s i = -1 -> indexOfFrom c s j = -1.
Proof.
  revert i j. induction s as [|a s IH]; intros i j Hi Hj; simpl; [done|].
  destruct (Ascii.eqb a c); [lia|].
  apply IH; lia.
Qed.

Lemma includes_cons a s c :
  includes (String a s) c = Ascii.eqb a c || includes s c.
Proof.
  unfold includes, indexOf. simpl.
  destruct (Ascii.eqb a c); simpl; [done|].
  f_equal.
  destruct (indexOfFrom c s 0 =? -1) eqn:E.
  - apply Z.eqb_eq in E. apply Z.eqb_eq.
    by apply (indexOfFrom_absent c s 0 (0 + 1)).
  - apply Z.eqb_neq in E. apply Z.eqb_neq. intros E'. apply E.
    by apply (indexOfFrom_absent c s (0 + 1) 0).
Qed.

Lemma includes_false_indexOf s c :
  includes s c = false -> indexOf s c = -1.
Proof.
  unfold includes. intros H. apply negb_false_iff in H. by apply Z.eqb_eq in H.
Qed.

Lemma indexOfFrom_first_occurrence p r c i :
  includes p c = false ->
  indexOfFrom c (p ++ String c r) i = i + Z.of_nat (String.length p).
Proof.
  revert i. induction p as [|a p IH]; intros i H; simpl.
  - rewrite Ascii.eqb_refl. lia.
  - rewrite includes_cons in H. apply orb_false_iff in H as [Ha Hp].
    rewrite Ha, (IH _ Hp). lia.
Qed.

Lemma substring_prefix p r :
  String.substring 0 (String.length p) (p ++ r) = p.
Proof.
  induction p as [|a p IH]; simpl.
  - by destruct r.
  - by rewrite IH.
Qed.

Lemma length_append p r :
  String.length (p ++ r) = (String.length p + String.length r)%nat.
Proof. induction p as [|a p IH]; simpl; [done | by rewrite IH]. Qed.

(** A name with a dot: the key is what stands before the first one. *)
Lemma getGroupKey_before_first_dot p r :
  includes p "." = false -> getGroupKey (p ++ String "." r) = p.
Proof.
  intros H. unfold getGroupKey, indexOf.
  rewrite indexOfFrom_first_occurrence by done.
  unfold substring, clampIndex. rewrite length_append. simpl String.length.
  replace (Z.min _ _) with 0 by lia.
  replace (Z.max _ _ - 0) with (Z.of_nat (String.length p)) by lia.
  rewrite Nat2Z.id. change (Z.to_nat 0) with 0%nat.
  apply substring_prefix.
Qed.

(** Every name with a dot splits at its first dot. *)
Lemma first_dot_split s :
  includes s "." = true ->
  exists p r, s = (p ++ String "." r)%string /\ includes p "." = false.
Proof.
  induction s as [|a s IH]; [done|].
  rewrite includes_cons. destruct (Ascii.eqb a ".") eqn:E; simpl.
  - intros _. apply Ascii.eqb_eq in E as ->. by exists EmptyString, s.
  - intros H. destruct (IH H) as (p & r & -> & Hp).
    exists (String a p), r. split; [done|].
    rewrite includes_cons, E, Hp. done.
Qed.

(** A name without a dot: [indexOf] answers -1, [substring(0, -1)] is
    [substring(0, 0)], and the key is the empty string. *)
Lemma getGroupKey_without_dot s :
  includes s "." = false -> getGroupKey s = "".
Proof.
  intros H. unfold getGroupKey. rewrite (includes_false_indexOf _ _ H).
  unfold substring, clampIndex.
  replace (Z.min _ _) with 0 by lia.
  replace (Z.max _ _ - 0) with 0 by lia.
  change (Z.to_nat 0) with 0%nat. by destruct s.
Qed.

(** ** Arrays: slice and sort *)

Lemma slice_all_but_last_two {A : Type} (l : list A) :
  slice l 0 (-2) = take (length l - 2) l.
Proof.
  unfold slice, relativeIndex. simpl.
  replace (Z.min 0 _) with 0 by lia. simpl. f_equal. lia.
Qed.

Lemma filter_cons_bool {A : Type} (p : A -> bool) x l :
  filter p (x :: l) = if p x then x :: filter p l else filter p l.
Proof. rewrite filter_cons. by destruct (p x). Qed.

Section Sorting.
Context {A : Type} (cmp : A -> A -> Z).

Lemma sortInsert_perm x l : sortInsert cmp x l ≡ₚ x :: l.
Proof.
  induction l as [|y l IH]; simpl; [done|].
  destruct (cmp x y <=? 0); [done|].
  rewrite IH. apply Permutation_swap.
Qed.

Lemma sort_perm l : sort cmp l ≡ₚ l.
Proof.
  induction l as [|x l IH]; simpl; [done|].
  change (foldr (sortInsert cmp) [] l) with (sort cmp l).
  by rewrite sortInsert_perm, IH.
Qed.

Lemma sort_length l : length (sort cmp l) = length l.
Proof. by rewrite sort_perm. Qed.

Lemma sort_elem_of x l : x ∈ sort cmp l <-> x ∈ l.
Proof. by rewrite sort_perm. Qed.

(** Stability, for any comparator: elements that pairwise do not compare
    greater than each other keep their relative order. *)
Lemma sortInsert_filter (p : A -> bool) x l :
  (forall y z, p y = true -> p z = true -> cmp y z <= 0) ->
  filter p (sortInsert cmp x l) = filter p (x :: l).
Proof.
  intros Hp. induction l as [|y l IH]; simpl; [done|].
  destruct (cmp x y <=? 0) eqn:E; [done|].
  apply Z.leb_gt in E.
  rewrite (filter_cons p y), IH, !filter_cons.
  destruct (decide (p x)) as [Hx|Hx], (decide (p y)) as [Hy|Hy]; try done.
  apply Is_true_eq_true in Hx, Hy. specialize (Hp x y Hx Hy). lia.
Qed.

Lemma sort_stable (p : A -> bool) l :
  (forall y z, p y = true -> p z = true -> cmp y z <= 0) ->
  filter p (sort cmp l) = filter p l.
Proof.
  intros Hp. induction l as [|x l IH]; simpl; [done|].
  change (foldr (sortInsert cmp) [] l) with (sort cmp l).
  rewrite sortInsert_filter by done.
  by rewrite !filter_cons, IH.
Qed.

(** Sortedness, for a comparator that is total and transitive on the
    elements satisfying [P]. *)
Section Consistent.
Variable P : A -> Prop.
Hypothesis cmp_total : forall x y, P x -> P y -> 0 < cmp x y -> cmp y x <= 0.
Hypothesis cmp_trans :
  forall x y z, P x -> P y -> P z -> cmp x y <= 0 -> cmp y z <= 0 -> cmp x z <= 0.

Lemma sortInsert_sorted x l :
  P x -> Forall P l ->
  StronglySorted (fun a b => cmp a b <= 0) l ->
  StronglySorted (fun a b => cmp a b <= 0) (sortInsert cmp x l).
Proof.
  intros Hx HP Hs. induction l as [|y l IH]; simpl.
  - repeat constructor.
  - apply Forall_cons in HP as [Hy HP].
    apply StronglySorted_cons in Hs as [Hyl Hs].
    destruct (cmp x y <=? 0) eqn:E.
    + apply Z.leb_le in E. apply StronglySorted_cons. split.
      * constructor; [done|].
        rewrite Forall_forall in Hyl, HP |- *. intros z Hz.
        apply cmp_trans with y; auto.
      * by apply StronglySorted_cons.
    + apply Z.leb_gt in E. apply StronglySorted_cons. split; [|auto].
      rewrite sortInsert_perm. constructor; [auto | done].
Qed.

Lemma sort_sorted l :
  Forall P l -> StronglySorted (fun a b => cmp a b <= 0) (sort cmp l).
Proof.
  induction l as [|x l IH]; simpl; intros HP; [constructor|].
  apply Forall_cons in HP as [Hx HP].
  apply sortInsert_sorted; [done | | auto].
  change (foldr (sortInsert cmp) [] l) with (sort cmp l).
  by rewrite sort_perm.
Qed.

(** An element that compares no greater than a whole sorted list goes
    to its front. *)
Lemma sortInsert_least x l :
  Forall (fun y => cmp x y <= 0) l -> sortInsert cmp x l = x :: l.
Proof.
  destruct l as [|y l]; simpl; [done|]. intros H.
  apply Forall_cons in H as [H _].
  by apply Z.leb_le in H as ->.
Qed.

(** Sorting commutes with filtering. *)
Lemma sortInsert_filter_sorted (p : A -> bool) x l :
  P x -> Forall P l ->
  StronglySorted (fun a b => cmp a b <= 0) l ->
  filter p (sortInsert cmp x l) =
  if p x then sortInsert cmp x (filter p l) else filter p l.
Proof.
  intros Hx HP Hs. induction l as [|y l IH]; simpl.
  - rewrite filter_cons_bool. by destruct (p x).
  - apply Forall_cons in HP as [Hy HP].
    apply StronglySorted_cons in Hs as [Hyl Hs].
    specialize (IH HP Hs).
    destruct (cmp x y <=? 0) eqn:E.
    + rewrite (filter_cons_bool p x). destruct (p x) eqn:Epx; [|done].
      symmetry. apply sortInsert_least.
      apply Z.leb_le in E.
      apply Forall_forall. intros z Hz.
      apply list_elem_of_filter in Hz as [_ Hz].
      apply elem_of_cons in Hz as [->|Hz]; [done|].
      rewrite Forall_forall in Hyl, HP.
      apply cmp_trans with y; auto.
    + rewrite (filter_cons_bool p y), IH, (filter_cons_bool p y).
      destruct (p x) eqn:Epx; [|done].
      destruct (p y); [|done].
      simpl. by rewrite E.
Qed.

Lemma sort_filter (p : A -> bool) l :
  Forall P l -> sort cmp (filter p l) = filter p (sort cmp l).
Proof.
  induction l as [|x l IH]; simpl; intros HP; [done|].
  apply Forall_cons in HP as [Hx HP].
  change (foldr (sortInsert cmp) [] l) with (sort cmp l).
  rewrite sortInsert_filter_sorted;
    [| done | by rewrite sort_perm | by apply sort_sorted].
  rewrite filter_cons_bool. destruct (p x) eqn:Epx; [|auto].
  simpl.
  change (foldr (sortInsert cmp) [] (filter p l)) with (sort cmp (filter p l)).
  by rewrite IH.
Qed.
End Consistent.

(** For a consistent comparator the order of the result does not depend
    on the sorting algorithm: a sorted rearrangement that keeps elements
    comparing equal in their order is unique, so [sort] yields the result
    ECMAScript prescribes. *)
Lemma stable_sorted_unique l1 l2 :
  (forall x, cmp x x <= 0) ->
  l1 ≡ₚ l2 ->
  StronglySorted (fun a b => cmp a b <= 0) l1 ->
  StronglySorted (fun a b => cmp a b <= 0) l2 ->
  (forall x, filter (comparesEqual cmp x) l1 = filter (comparesEqual cmp x) l2) ->
  l1 = l2.
Proof.
  intros Hrefl. revert l2. induction l1 as [|a l1 IH]; intros l2 Hp Hs1 Hs2 Hf.
  - by apply Permutation_nil_l in Hp.
  - destruct l2 as [|b l2]; [by apply Permutation_nil_r in Hp|].
    apply StronglySorted_cons in Hs1 as [Ha Hs1].
    apply StronglySorted_cons in Hs2 as [Hb Hs2].
    assert (Hab : a = b).
    { assert (Hle1 : cmp a b <= 0).
      { assert (Hin : b ∈ a :: l1) by (rewrite Hp; left).
        apply elem_of_cons in Hin as [->|Hin]; [auto|].
        rewrite Forall_forall in Ha. auto. }
      assert (Hle2 : cmp b a <= 0).
      { assert (Hin : a ∈ b :: l2) by (rewrite <- Hp; left).
        apply elem_of_cons in Hin as [->|Hin]; [auto|].
        rewrite Forall_forall in Hb. auto. }
      specialize (Hf a). rewrite !filter_cons_bool in Hf.
      assert (comparesEqual cmp a a = true) as Haa.
      { unfold comparesEqual. specialize (Hrefl a).
        apply Z.leb_le in Hrefl. by rewrite Hrefl. }
      assert (comparesEqual cmp a b = true) as Hab'.
      { unfold comparesEqual. apply Z.leb_le in Hle1, Hle2. by rewrite Hle1, Hle2. }
      rewrite Haa, Hab' in Hf. by injection Hf. }
    subst b. f_equal. apply IH; [by apply Permutation_cons_inv in Hp | done | done |].
    intros x. specialize (Hf x). rewrite !filter_cons_bool in Hf.
    destruct (comparesEqual cmp x a); [by injection Hf | done].
Qed.

Lemma sort_is_the_stable_sort l out :
  (forall x, cmp x x <= 0) ->
  (forall x y, 0 < cmp x y -> cmp y x <= 0) ->
  (forall x y z, cmp x y <= 0 -> cmp y z <= 0 -> cmp x z <= 0) ->
  out ≡ₚ l ->
  StronglySorted (fun a b => cmp a b <= 0) out ->
  (forall x, filter (comparesEqual cmp x) out = filter (comparesEqual cmp x) l) ->
  out = sort cmp l.
Proof.
  intros Hrefl Htot Htrans Hp Hs Hf.
  apply stable_sorted_unique; [done | by rewrite sort_perm | done | |].
  - apply (sort_sorted (fun _ => True)); [auto | eauto | by apply Forall_forall].
  - intros x. rewrite Hf. symmetry. apply sort_stable.
    intros y z Hy Hz. unfold comparesEqual in Hy, Hz.
    apply andb_true_iff in Hy as [_ Hy], Hz as [Hz _].
    apply Z.leb_le in Hy, Hz. by apply Htrans with x.
Qed.
End Sorting.

Lemma StronglySorted_lookup {A : Type} (R : A -> A -> Prop) (l : list A) i j a b :
  StronglySorted R l -> (i < j)%nat -> l !! i = Some a -> l !! j = Some b -> R a b.
Proof.
  intros Hs. revert i j. induction Hs as [|x l Hs IH Hx]; intros i j Hij Hi Hj; [done|].
  destruct j as [|j]; [lia|]. simpl in Hj.
  destruct i as [|i]; simpl in Hi.
  - injection Hi as ->. rewrite Forall_forall in Hx. apply Hx.
    by apply list_elem_of_lookup_2 in Hj.
  - apply (IH i j); [lia | done | done].
Qed.

(** ** Arrays: the sort of the engine *)

(** Whatever the placement, the result is a rearrangement of the input. *)
Lemma insertAt_perm {A : Type} p (x : A) acc : insertAt p x acc ≡ₚ x :: acc.
Proof. unfold insertAt. rewrite <- Permutation_middle. by rewrite take_drop. Qed.

Lemma placeFrom_perm {A : Type} (acc : list A) ps l : placeFrom acc ps l ≡ₚ acc ++ l.
Proof.
  revert acc ps. induction l as [|x l IH]; intros acc ps; simpl.
  - by rewrite app_nil_r.
  - destruct ps as [|p ps]; rewrite IH, insertAt_perm; simpl; apply Permutation_middle.
Qed.

Lemma place_perm {A : Type} ps (l : list A) : place ps l ≡ₚ l.
Proof. unfold place. by rewrite placeFrom_perm. Qed.

Lemma midpoint_between (lo hi : nat) :
  (lo < hi)%nat -> (lo <= (lo + hi) / 2 < hi)%nat.
Proof.
  intros H. pose proof (Nat.div_mod_eq (lo + hi) 2) as Hd.
  pose proof (Nat.mod_upper_bound (lo + hi) 2) as Hu. lia.
Qed.

(** The search halves its range at every step, so it ends before the
    fuel does: the position does not depend on the fuel once the fuel
    covers the range. *)
Lemma searchPosition_fuel {A : Type} (cmp : A -> A -> Z) x acc fuel fuel' lo hi :
  (hi - lo <= fuel)%nat -> (hi - lo <= fuel')%nat ->
  searchPosition fuel cmp x acc lo hi = searchPosition fuel' cmp x acc lo hi.
Proof.
  revert fuel' lo hi. induction fuel as [|fuel IH]; intros fuel' lo hi H1 H2.
  - destruct fuel'; cbn [searchPosition]; [done|].
    assert ((lo <? hi)%nat = false) as -> by (apply Nat.ltb_ge; lia). done.
  - cbn [searchPosition]. destruct (lo <? hi)%nat eqn:E.
    + apply Nat.ltb_lt in E. destruct fuel' as [|fuel']; [lia|].
      cbn [searchPosition]. rewrite (proj2 (Nat.ltb_lt _ _) E).
      pose proof (midpoint_between lo hi E).
      destruct (acc !! ((lo + hi) / 2)%nat) as [y|]; [|done].
      destruct (cmp x y <? 0); apply IH; lia.
    + destruct fuel'; cbn [searchPosition]; [done|]. by rewrite E.
Qed.

(** Binary insertion with a comparator that is consistent on the
    elements satisfying [P]: every insertion keeps the array sorted and
    puts the element behind those it compares equal to, so the result is
    the stable sorted arrangement. *)
Section BinaryInsertion.
Context {A : Type} (cmp : A -> A -> Z) (P : A -> Prop).
Hypothesis cmp_refl : forall x, P x -> cmp x x = 0.
Hypothesis cmp_anti : forall x y, P x -> P y -> (cmp x y < 0 <-> 0 < cmp y x).
Hypothesis cmp_trans :
  forall x y z, P x -> P y -> P z -> cmp x y <= 0 -> cmp y z <= 0 -> cmp x z <= 0.














End BinaryInsertion.

(** What every engine guarantees, whatever the comparator. *)
Lemma engineSort_perm rt cmp l : engineSort rt cmp l ≡ₚ l.
Proof. apply place_perm. Qed.

Lemma engineSort_length rt cmp l : length (engineSort rt cmp l) = length l.
Proof. by rewrite engineSort_perm. Qed.

Lemma engineSort_elem_of rt cmp x l : x ∈ engineSort rt cmp l <-> x ∈ l.
Proof. by rewrite engineSort_perm. Qed.


(** ** findEarliestDateInGroup *)

Lemma earliest_foldl_None acc files :
  foldl earliestStep acc files = None <->
  acc = None /\ Forall (fun f => lastModified f = None) files.
Proof.
  revert acc. induction files as [|f files IH]; intros acc; simpl.
  - split; [intros ->; by split | by intros [-> _]].
  - rewrite IH, Forall_cons. unfold earliestStep.
    destruct (lastModified f) as [t|], acc as [e|]; try destruct (t <? e);
      intuition congruence.
Qed.

Lemma earliest_foldl_Some acc files t :
  foldl earliestStep acc files = Some t ->
  (acc = Some t \/ exists f, f ∈ files /\ lastModified f = Some t) /\
  (forall e, acc = Some e -> t <= e) /\
  (forall f t', f ∈ files -> lastModified f = Some t' -> t <= t').
Proof.
  revert acc. induction files as [|f files IH]; intros acc; simpl.
  - intros ->. split; [by left|]. split; [intros e [= ->]; lia|].
    intros f t' Hf. by apply elem_of_nil in Hf.
  - intros H. apply IH in H as (Hin & Hacc & Hall).
    unfold earliestStep in Hin, Hacc.
    split; [|split].
    + destruct (lastModified f) as [u|] eqn:Ef.
      * destruct acc as [e|].
        -- destruct (u <? e) eqn:E.
           ++ destruct Hin as [[= <-]|(g & Hg & Hgt)].
              ** right. exists f. split; [left | done].
              ** right. exists g. split; [by right | done].
           ++ destruct Hin as [?|(g & Hg & Hgt)]; [by left|].
              right. exists g. split; [by right | done].
        -- destruct Hin as [[= <-]|(g & Hg & Hgt)].
           ++ right. exists f. split; [left | done].
           ++ right. exists g. split; [by right | done].
      * destruct Hin as [?|(g & Hg & Hgt)]; [by left|].
        right. exists g. split; [by right | done].
    + intros e ->. destruct (lastModified f) as [u|]; [|by apply Hacc].
      destruct (u <? e) eqn:E.
      * apply Z.ltb_lt in E. specialize (Hacc u eq_refl). lia.
      * by apply Hacc.
    + intros g t' Hg Hgt. apply elem_of_cons in Hg as [->|Hg]; [|by eapply Hall].
      rewrite Hgt in Hacc. destruct acc as [e|].
      * destruct (t' <? e) eqn:E; [by apply Hacc|].
        apply Z.ltb_ge in E. specialize (Hacc e eq_refl). lia.
      * by apply Hacc.
Qed.

Lemma compareEarliest_le a b : compareEarliest a b <= 0 <-> earliestLe a b.
Proof. destruct a, b; simpl; lia. Qed.

Lemma compareEarliest_total a b : 0 < compareEarliest a b -> compareEarliest b a <= 0.
Proof. destruct a, b; simpl; lia. Qed.

Lemma compareEarliest_trans a b c :
  compareEarliest a b <= 0 -> compareEarliest b c <= 0 -> compareEarliest a c <= 0.
Proof. destruct a, b, c; simpl; lia. Qed.

Lemma sortedGroupEntries_sorted h m :
  StronglySorted (fun a b => compareGroups h a b <= 0) (sortedGroupEntries h m).
Proof.
  apply (sort_sorted (compareGroups h) (fun _ => True)).
  - intros x y _ _. apply compareEarliest_total.
  - intros x y z _ _ _. apply compareEarliest_trans.
  - by apply Forall_forall.
Qed.

Lemma sortedGroupEntries_filter h (p : string * Ref -> bool) m :
  sortedGroupEntries h (filter p m) = filter p (sortedGroupEntries h m).
Proof.
  apply (sort_filter (compareGroups h) (fun _ => True)).
  - intros x y _ _. apply compareEarliest_total.
  - intros x y z _ _ _. apply compareEarliest_trans.
  - by apply Forall_forall.
Qed.

(** C5.  The groups are ordered ascending by their earliest date: the
    earliest date of a group is the least defined [lastModified] of its
    records and is absent exactly when no record has one; the ordered
    entries are a rearrangement of the Map's entries, sorted with absent
    earliest dates last, every group without an earliest date stands
    after every group with one, and groups with the same earliest date
    (absent included) keep their relative order. *)
Theorem orderGroups_by_earliest (h : Heap) (m : JsMap) :
  (forall files,
     (findEarliestDateInGroup files = None <->
      Forall (fun f => lastModified f = None) files) /\
     (forall t, findEarliestDateInGroup files = Some t ->
        (exists f, f ∈ files /\ lastModified f = Some t) /\
        (forall f t', f ∈ files -> lastModified f = Some t' -> t <= t'))) /\
  sortedGroupEntries h m ≡ₚ m /\
  StronglySorted (fun a b => earliestLe (earliestOf h a) (earliestOf h b))
    (sortedGroupEntries h m) /\
  (forall (i j : nat) a b,
     sortedGroupEntries h m !! i = Some a ->
     sortedGroupEntries h m !! j = Some b ->
     earliestOf h a = None -> earliestOf h b <> None -> (j < i)%nat) /\
  (forall e,
     filter (fun g => bool_decide (earliestOf h g = e)) (sortedGroupEntries h m) =
     filter (fun g => bool_decide (earliestOf h g = e)) m).
Proof.
  assert (Hs : StronglySorted (fun a b => earliestLe (earliestOf h a) (earliestOf h b))
                 (sortedGroupEntries h m)).
  { pose proof (sortedGroupEntries_sorted h m) as Hs.
    induction Hs as [|x l Hs IH Hx]; constructor; [done|].
    eapply Forall_impl; [exact Hx|]. intros y Hy. by apply compareEarliest_le. }
  split; [|split; [|split; [|split]]].
  - intros files. split.
    + unfold findEarliestDateInGroup. rewrite earliest_foldl_None. tauto.
    + intros t Ht. apply earliest_foldl_Some in Ht as ([?|?] & _ & ?); [done|done].
  - apply sort_perm.
  - exact Hs.
  - intros i j a b Hi Hj Ha Hb.
    destruct (decide (j < i)%nat) as [|Hge]; [done|].
    destruct (decide (i = j)) as [->|Hne].
    + rewrite Hi in Hj. injection Hj as ->. done.
    + assert (Hlt : (i < j)%nat) by lia.
      pose proof (StronglySorted_lookup _ _ _ _ _ _ Hs Hlt Hi Hj) as Hle.
      simpl in Hle. rewrite Ha in Hle. by destruct (earliestOf h b).
  - intros e. apply sort_stable. intros y z Hy Hz.
    apply bool_decide_eq_true in Hy, Hz. unfold compareGroups.
    fold (earliestOf h y) (earliestOf h z). rewrite Hy, Hz.
    destruct e; simpl; lia.
Qed.

(** ** Key derivation *)

(** C1.  A name without a dot does not keep its whole name as key:
    [indexOf] answers -1, so [substring(0, -1)] is taken and the key of
    "README" is the empty string.  (For a name with a dot the key is the
    part before the first dot, see [getGroupKey_before_first_dot].) *)
Theorem getGroupKey_README_empty :
  includes "README" "." = false /\
  indexOf "README" "." = -1 /\
  getGroupKey "README" = ""%string /\
  getGroupKey "README" <> "README"%string.
Proof. repeat split; try reflexivity. discriminate. Qed.

(** ** Retention split *)




(** ** The excess-only report *)








(** ** The saving loop: what holds whatever the runtime does *)

Lemma deref_perm h0 h r : Forall2 (≡ₚ) h0 h -> deref h0 r ≡ₚ deref h r.
Proof.
  intros Hh. unfold deref. destruct (h !! r) as [a|] eqn:E.
  - destruct (Forall2_lookup_r _ _ _ _ _ Hh E) as (a0 & -> & Ha). done.
  - apply lookup_ge_None in E. rewrite <- (Forall2_length _ _ _ Hh) in E.
    apply lookup_ge_None in E. by rewrite E.
Qed.

Lemma heap_sorted_cell_perm (cmp : FileInfo -> FileInfo -> Z) h0 (h : Heap) r :
  Forall2 (≡ₚ) h0 h -> Forall2 (≡ₚ) h0 (<[r := sort cmp (deref h r)]> h).
Proof.
  intros Hh. unfold deref. destruct (h !! r) as [a|] eqn:E; simpl.
  - destruct (Forall2_lookup_r _ _ _ _ _ Hh E) as (a0 & E0 & Ha).
    rewrite <- (list_insert_id h0 r a0) by done.
    apply Forall2_insert; [done|]. by rewrite sort_perm.
  - apply lookup_ge_None in E. by rewrite list_insert_ge.
Qed.

Lemma elem_of_take_list {A : Type} (x : A) n l : x ∈ take n l -> x ∈ l.
Proof. intros H. rewrite <- (take_drop n l). apply elem_of_app. by left. Qed.

Lemma fromQualifying_cons h e entries x :
  fromQualifying h entries x -> fromQualifying h (e :: entries) x.
Proof. intros (e' & He & Hq & Hx). exists e'. split; [by right | done]. Qed.

Lemma reportOfQualifying_cons h e entries ev :
  reportOfQualifying h entries ev -> reportOfQualifying h (e :: entries) ev.
Proof.
  intros (e' & d & fs & He & Hq & Hev). exists e', d, fs. split; [by right | done].
Qed.

Lemma saveGroups_sound rt h0 entries s :
  Forall2 (≡ₚ) h0 (sheap s) ->
  Forall2 (≡ₚ) h0 (sheap (saveGroups rt entries s).1) /\
  (forall x, x ∈ earliestTotals (saveGroups rt entries s).1 ->
     x ∈ earliestTotals s \/ fromQualifying h0 entries x) /\
  (forall x, x ∈ alldata (saveGroups rt entries s).1 ->
     x ∈ alldata s \/ fromQualifying h0 entries x) /\
  (forall ev, ev ∈ trace (saveGroups rt entries s).1 ->
     ev ∈ trace s \/ reportOfQualifying h0 entries ev).
Proof.
  revert s. induction entries as [|[k r] rest IH]; intros s Hh; simpl.
  - repeat split; auto.
  - destruct (length (deref (sheap s) r) <? 3)%nat eqn:E.
    + destruct (IH s Hh) as (H1 & H2 & H3 & H4).
      split; [done|]. split; [|split].
      * intros x Hx. destruct (H2 x Hx); [by left | right; by apply fromQualifying_cons].
      * intros x Hx. destruct (H3 x Hx); [by left | right; by apply fromQualifying_cons].
      * intros x Hx. destruct (H4 x Hx); [by left | right; by apply reportOfQualifying_cons].
    + assert (Hq : qualifies h0 (k, r) = true).
      { unfold qualifies. simpl. rewrite (Permutation_length (deref_perm _ _ r Hh)).
        by rewrite E. }
      assert (Hex : forall x, x ∈ slice (deref (sheap s) r) 0 (-2) ->
                              fromQualifying h0 ((k, r) :: rest) x).
      { intros x Hx. rewrite slice_all_but_last_two in Hx.
        apply elem_of_take_list in Hx.
        exists (k, r). split; [left|]. split; [done|].
        simpl. by rewrite (deref_perm _ _ r Hh). }
      assert (Hso : forall x, x ∈ sort (compareNames rt) (deref (sheap s) r) ->
                              fromQualifying h0 ((k, r) :: rest) x).
      { intros x Hx. apply sort_elem_of in Hx.
        exists (k, r). split; [left|]. split; [done|].
        simpl. by rewrite (deref_perm _ _ r Hh). }
      assert (Het : forall x,
        x ∈ (if (0 <? length (slice (deref (sheap s) r) 0 (-2)))%nat
             then earliestTotals s ++ slice (deref (sheap s) r) 0 (-2)
             else earliestTotals s) ->
        x ∈ earliestTotals s \/ fromQualifying h0 ((k, r) :: rest) x).
      { intros x Hx. destruct (0 <? _)%nat; [|by left].
        apply elem_of_app in Hx as [?|?]; [by left | right; auto]. }
      assert (Had : forall x,
        x ∈ alldata s ++ sort (compareNames rt) (deref (sheap s) r) ->
        x ∈ alldata s \/ fromQualifying h0 ((k, r) :: rest) x).
      { intros x Hx. apply elem_of_app in Hx as [?|?]; [by left | right; auto]. }
      pose proof (heap_sorted_cell_perm (compareNames rt) h0 (sheap s) r Hh) as Hh'.
      unfold bunWrite. destruct (writeOk rt (groupReportPath k)); simpl.
      * match goal with |- context [saveGroups rt rest ?s1] =>
          destruct (IH s1 Hh') as (H1 & H2 & H3 & H4) end.
        simpl in H2, H3, H4.
        split; [done|]. split; [|split].
        -- intros x Hx. destruct (H2 x Hx); [auto | right; by apply fromQualifying_cons].
        -- intros x Hx. destruct (H3 x Hx); [auto | right; by apply fromQualifying_cons].
        -- intros ev Hev. destruct (H4 ev Hev) as [Hin|?];
             [| right; by apply reportOfQualifying_cons].
           apply elem_of_app in Hin as [?|Hin]; [by left|].
           apply list_elem_of_singleton in Hin as ->. right.
           eexists (k, r), _, _. split; [left|]. split; [done | reflexivity].
      * split; [done|]. split; [done|]. split; [done|]. auto.
Qed.

(** ** The saving loop: distinct arrays and no failing write *)

Lemma deref_insert_ne (h : Heap) r r' v : r <> r' -> deref (<[r := v]> h) r' = deref h r'.
Proof. intros Hne. unfold deref. by rewrite list_lookup_insert_ne. Qed.

Lemma deref_insert_eq (h : Heap) r v : (r < length h)%nat -> deref (<[r := v]> h) r = v.
Proof. intros Hlt. unfold deref. by rewrite list_lookup_insert_eq. Qed.

Lemma deref_nonempty_valid (h : Heap) r : deref h r <> [] -> (r < length h)%nat.
Proof.
  unfold deref. intros Hne. destruct (h !! r) eqn:E; [|done].
  by apply lookup_lt_Some in E.
Qed.

Lemma contents_insert_notin (h : Heap) r v (entries : list (string * nat)) :
  r ∉ entries.*2 -> contents (<[r := v]> h) entries = contents h entries.
Proof.
  induction entries as [|[k r'] rest IH]; simpl; [done|].
  intros Hnotin. apply not_elem_of_cons in Hnotin as [Hne Hrest].
  by rewrite IH, deref_insert_ne.
Qed.

Lemma qualifyingGroups_cons h k r rest :
  qualifyingGroups h ((k, r) :: rest) =
  if (length (deref h r) <? 3)%nat then qualifyingGroups h rest
  else (k, deref h r) :: qualifyingGroups h rest.
Proof.
  unfold qualifyingGroups. simpl. rewrite filter_cons_bool. simpl.
  by destruct (length (deref h r) <? 3)%nat.
Qed.

Lemma saveGroups_complete rt entries s :
  NoDup entries.*2 ->
  (forall path, writeOk rt path = true) ->
  exists s',
    saveGroups rt entries s = (s', true) /\
    earliestTotals s' =
      earliestTotals s ++
      concat (map (fun g => slice g.2 0 (-2)) (qualifyingGroups (sheap s) entries)) /\
    alldata s' =
      alldata s ++
      concat (map (fun g => sort (compareNames rt) g.2) (qualifyingGroups (sheap s) entries)) /\
    trace s' = trace s ++ map (groupReportEvent rt) (qualifyingGroups (sheap s) entries) /\
    (forall e, e ∈ entries ->
       deref (sheap s') e.2 =
       if qualifies (sheap s) e then sort (compareNames rt) (deref (sheap s) e.2)
       else deref (sheap s) e.2) /\
    (forall r, r ∉ entries.*2 -> deref (sheap s') r = deref (sheap s) r).
Proof.
  intros Hnd Hw. revert s. induction entries as [|[k r] rest IH]; intros s.
  - exists s. simpl. rewrite !app_nil_r. repeat split; try done.
    intros e He. by apply elem_of_nil in He.
  - rewrite fmap_cons in Hnd. apply NoDup_cons in Hnd as [Hr Hnd].
    change (r ∉ rest.*2) in Hr. specialize (IH Hnd).
    rewrite qualifyingGroups_cons. simpl saveGroups.
    destruct (length (deref (sheap s) r) <? 3)%nat eqn:E.
    + destruct (IH s) as (s' & Hrun & Het & Had & Htr & Hin & Hout).
      exists s'. repeat split; try done.
      * intros e He. apply elem_of_cons in He as [->|He]; [|by apply Hin].
        unfold qualifies. simpl. rewrite E. simpl. by apply Hout.
      * intros r' Hr'. apply not_elem_of_cons in Hr' as [_ Hr']. by apply Hout.
    + assert (Hlen : (3 <= length (deref (sheap s) r))%nat) by (by apply Nat.ltb_ge).
      rewrite !slice_all_but_last_two.
      assert ((0 <? length (take (length (deref (sheap s) r) - 2) (deref (sheap s) r)))%nat
              = true) as ->.
      { apply Nat.ltb_lt. rewrite length_take. lia. }
      unfold bunWrite. rewrite Hw.
      match goal with |- context [saveGroups rt rest ?s1] =>
        destruct (IH s1) as (s' & Hrun & Het & Had & Htr & Hin & Hout) end.
      simpl in Het, Had, Htr, Hin, Hout.
      unfold qualifyingGroups in Het, Had, Htr.
      rewrite contents_insert_notin in Het, Had, Htr by done.
      fold (qualifyingGroups (sheap s) rest) in Het, Had, Htr.
      exists s'. split; [done|]. simpl.
      rewrite slice_all_but_last_two.
      split; [by rewrite Het, <- app_assoc|].
      split; [by rewrite Had, <- app_assoc|].
      split; [by rewrite Htr, <- app_assoc|].
      assert (Hvalid : (r < length (sheap s))%nat).
      { apply deref_nonempty_valid. intros Hnil. rewrite Hnil in Hlen. simpl in Hlen. lia. }
      split.
      * intros e He. apply elem_of_cons in He as [->|He].
        -- unfold qualifies. simpl. rewrite E. simpl.
           rewrite (Hout r Hr). by apply deref_insert_eq.
        -- assert (Hne : r <> e.2).
           { intros ->. apply Hr. by apply list_elem_of_fmap_2. }
           rewrite (Hin e He). unfold qualifies.
           by rewrite !deref_insert_ne.
      * intros r' Hr'. apply not_elem_of_cons in Hr' as [Hne Hr'].
        rewrite (Hout r' Hr'). by apply deref_insert_ne.
Qed.

Lemma qualifyingGroups_elem_of h entries g :
  g ∈ qualifyingGroups h entries <->
  exists e, e ∈ entries /\ qualifies h e = true /\ g = (e.1, deref h e.2).
Proof.
  unfold qualifyingGroups, contents, qualifies.
  rewrite list_elem_of_filter, list_elem_of_fmap.
  split.
  - intros [Hq (e & -> & He)]. exists e. simpl in Hq.
    split; [done|]. split; [by apply Is_true_eq_true | done].
  - intros (e & He & Hq & ->). split; [simpl; by rewrite Hq | by exists e].
Qed.

Lemma qualifyingGroups_size h entries g :
  g ∈ qualifyingGroups h entries -> (3 <= length g.2)%nat.
Proof.
  intros Hg. apply qualifyingGroups_elem_of in Hg as (e & _ & Hq & ->).
  unfold qualifies in Hq. apply negb_true_iff, Nat.ltb_ge in Hq. done.
Qed.

Lemma sortedGroupEntries_elem_of h m e : e ∈ sortedGroupEntries h m <-> e ∈ m.
Proof. apply sort_elem_of. Qed.

(** The whole phase when no operation throws and the Map's arrays are
    distinct objects: the reports of the qualifying groups in the group
    order, then the two exports and the excess-only report when there is
    a qualifying group; in the heap every qualifying group is left sorted
    by name. *)
Lemma reorderAndSave_complete rt (m : JsMap) h :
  ioSucceeds rt -> NoDup m.*2 ->
  let Q := qualifyingGroups h (sortedGroupEntries h m) in
  let all := concat (map (fun g => sort (compareNames rt) g.2) Q) in
  let excess := concat (map (fun g : string * list FileInfo => slice g.2 0 (-2)) Q) in
  events (reorderAndSaveGroupedFiles rt m h) =
    directoryEvents rt ++ map (groupReportEvent rt) Q ++
    match Q with
    | [] => []
    | _ :: _ =>
        [WriteFile csvPath (CsvExport all); WriteFile jsonPath (JsonExport all);
         WriteFile earliestPath (EarliestReport (engineSort rt compareLastModified excess))]
    end /\
  forall e, e ∈ m ->
    deref (finalHeap (reorderAndSaveGroupedFiles rt m h)) e.2 =
    if qualifies h e then sort (compareNames rt) (deref h e.2) else deref h e.2.
Proof.
  intros [Hdir Hw] Hnd Q all excess.
  assert (Hnd' : NoDup (sortedGroupEntries h m).*2).
  { unfold sortedGroupEntries. by rewrite sort_perm. }
  destruct (saveGroups_complete rt (sortedGroupEntries h m)
              (mkSaveState h [] [] 0%nat (directoryEvents rt)) Hnd' Hw)
    as (s' & Hrun & Het & Had & Htr & Hin & _).
  simpl in Het, Had, Htr, Hin. fold Q in Het, Had, Htr. fold all in Had. fold excess in Het.
  unfold reorderAndSaveGroupedFiles.
  assert ((if outputDirExists rt then Some []
           else if mkdirOk rt then Some [Mkdir "./output"%string] else None)
          = Some (directoryEvents rt)) as ->.
  { unfold directoryEvents. destruct (outputDirExists rt); [done|].
    destruct Hdir as [?| ->]; done. }
  rewrite Hrun.
  assert (Hagg : saveAggregates rt s' =
    (directoryEvents rt ++ map (groupReportEvent rt) Q ++
      match Q with
      | [] => []
      | _ :: _ =>
          [WriteFile csvPath (CsvExport all); WriteFile jsonPath (JsonExport all);
           WriteFile earliestPath (EarliestReport (engineSort rt compareLastModified excess))]
      end, true)).
  { unfold saveAggregates, writeToCsv, writeToJson, saveEarliestFileRecords, bunWrite.
    rewrite Had, Het, Htr, !Hw.
    destruct Q as [|g Q'] eqn:EQ.
    - subst all excess. simpl. by rewrite !app_nil_r.
    - assert (Hg : (3 <= length g.2)%nat).
      { apply (qualifyingGroups_size h (sortedGroupEntries h m)). fold Q. rewrite EQ. left. }
      assert ((0 <? length all)%nat = true) as ->.
      { apply Nat.ltb_lt. subst all. simpl. rewrite length_app, sort_length. lia. }
      assert ((0 <? length excess)%nat = true) as ->.
      { apply Nat.ltb_lt. subst excess. simpl.
        rewrite length_app, slice_all_but_last_two, length_take. lia. }
      by rewrite <- !app_assoc. }
  rewrite Hagg. split; [done|].
  intros e He. simpl. apply (sortedGroupEntries_elem_of h) in He. apply (Hin e He).
Qed.

(** ** The Map *)

Lemma mapGet_Some_elem_of (m : JsMap) k r : mapGet m k = Some r -> (k, r) ∈ m.
Proof.
  induction m as [|[k' r'] m IH]; simpl; [done|].
  destruct (String.eqb k' k) eqn:E.
  - apply String.eqb_eq in E as ->. intros [= ->]. left.
  - intros H. right. auto.
Qed.

Lemma mapGet_None (m : JsMap) k : mapGet m k = None <-> k ∉ m.*1.
Proof.
  induction m as [|[k' r'] m IH]; simpl.
  - split; [intros _; apply not_elem_of_nil | done].
  - rewrite not_elem_of_cons. destruct (String.eqb k' k) eqn:E.
    + apply String.eqb_eq in E as ->. split; [done | by intros [? _]].
    + apply String.eqb_neq in E. rewrite IH. split; [by intros ?; split | by intros [_ ?]].
Qed.

Lemma mapGet_NoDup (m : JsMap) k r : NoDup m.*1 -> (k, r) ∈ m -> mapGet m k = Some r.
Proof.
  induction m as [|[k' r'] m IH]; simpl; intros Hnd Hin.
  - by apply elem_of_nil in Hin.
  - apply NoDup_cons in Hnd as [Hk' Hnd].
    apply elem_of_cons in Hin as [[= -> ->]|Hin].
    + by rewrite String.eqb_refl.
    + destruct (String.eqb k' k) eqn:E; [|auto].
      apply String.eqb_eq in E as ->. exfalso. apply Hk'.
      change k with (k, r).1. by apply list_elem_of_fmap_2.
Qed.

Lemma mapSet_fresh (m : JsMap) k r : mapGet m k = None -> mapSet m k r = m ++ [(k, r)].
Proof.
  induction m as [|[k' r'] m IH]; simpl; [done|].
  destruct (String.eqb k' k); [done|]. intros H. by rewrite IH.
Qed.

Lemma mapGet_snoc (m : JsMap) k r : mapGet m k = None -> mapGet (m ++ [(k, r)]) k = Some r.
Proof.
  induction m as [|[k' r'] m IH]; simpl.
  - by rewrite String.eqb_refl.
  - destruct (String.eqb k' k); [done | auto].
Qed.

(** ** The grouping loop *)

Lemma groupStep_nested st blob :
  isNested blob = true ->
  groupStep st blob =
  mkGroupState (groupedFiles st) (gheap st)
    (S (totalFilesConsidered st)) (S (nestedFileCount st)).
Proof. unfold groupStep, isNested. by intros ->. Qed.

Lemma groupStep_existing st blob r :
  isNested blob = false ->
  mapGet (groupedFiles st) (getGroupKey (blob_name blob)) = Some r ->
  groupStep st blob =
  mkGroupState (groupedFiles st) (heapPush (gheap st) r (toFileInfo blob))
    (S (totalFilesConsidered st)) (nestedFileCount st).
Proof.
  unfold groupStep, isNested, mapHas. intros -> Hget. by rewrite Hget, Hget.
Qed.

Lemma groupStep_fresh st blob :
  isNested blob = false ->
  mapGet (groupedFiles st) (getGroupKey (blob_name blob)) = None ->
  groupStep st blob =
  mkGroupState (groupedFiles st ++ [(getGroupKey (blob_name blob), length (gheap st))])
    (gheap st ++ [[toFileInfo blob]])
    (S (totalFilesConsidered st)) (nestedFileCount st).
Proof.
  unfold groupStep, isNested, mapHas. intros -> Hget. rewrite Hget.
  rewrite mapSet_fresh by done. rewrite mapGet_snoc by done.
  f_equal. unfold heapPush.
  rewrite (alter_app_r_alt _ (gheap st) [[]] (length (gheap st))) by lia.
  by rewrite Nat.sub_diag.
Qed.

Lemma NoDup_fmap_elem_inj {A B : Type} (f : A -> B) (l : list A) x y :
  NoDup (f <$> l) -> x ∈ l -> y ∈ l -> f x = f y -> x = y.
Proof.
  induction l as [|a l IH]; intros Hnd Hx Hy Hf; [by apply elem_of_nil in Hx|].
  rewrite fmap_cons in Hnd. apply NoDup_cons in Hnd as [Ha Hnd].
  apply elem_of_cons in Hx as [->|Hx], Hy as [->|Hy]; [done | | | by apply IH].
  - exfalso. apply Ha. rewrite Hf. by apply list_elem_of_fmap_2.
  - exfalso. apply Ha. rewrite <- Hf. by apply list_elem_of_fmap_2.
Qed.

Lemma deref_heapPush_eq (h : Heap) r x :
  (r < length h)%nat -> deref (heapPush h r x) r = deref h r ++ [x].
Proof.
  intros Hlt. unfold deref, heapPush. rewrite list_lookup_alter_eq.
  apply lookup_lt_is_Some in Hlt as [a ->]. done.
Qed.

Lemma deref_heapPush_ne (h : Heap) r r' x :
  r <> r' -> deref (heapPush h r x) r' = deref h r'.
Proof. intros Hne. unfold deref, heapPush. by rewrite list_lookup_alter_ne. Qed.

Lemma deref_app_l (h h' : Heap) r : (r < length h)%nat -> deref (h ++ h') r = deref h r.
Proof. intros Hlt. unfold deref. by rewrite lookup_app_l. Qed.

Lemma contents_heapPush_notin (h : Heap) r x (m : JsMap) :
  r ∉ m.*2 -> contents (heapPush h r x) m = contents h m.
Proof.
  induction m as [|[k r'] m IH]; [done|].
  intros Hnotin. rewrite fmap_cons in Hnotin.
  apply not_elem_of_cons in Hnotin as [Hne Hrest].
  unfold contents in *. rewrite !fmap_cons, IH by done. simpl.
  by rewrite deref_heapPush_ne.
Qed.

Lemma contents_app_heap (h h' : Heap) (m : JsMap) :
  Forall (fun r => (r < length h)%nat) m.*2 -> contents (h ++ h') m = contents h m.
Proof.
  induction m as [|[k r] m IH]; [done|].
  intros Hall. rewrite fmap_cons in Hall. apply Forall_cons in Hall as [Hr Hall].
  unfold contents in *. rewrite !fmap_cons, IH by done. simpl.
  by rewrite deref_app_l.
Qed.

Lemma concat_contents_heapPush (h : Heap) (m : JsMap) k0 r0 x :
  NoDup m.*2 -> (k0, r0) ∈ m -> (r0 < length h)%nat ->
  concat (contents (heapPush h r0 x) m).*2 ≡ₚ concat (contents h m).*2 ++ [x].
Proof.
  intros Hnd Hin Hlt. induction m as [|[k r] m IH]; [by apply elem_of_nil in Hin|].
  rewrite fmap_cons in Hnd. apply NoDup_cons in Hnd as [Hr Hnd].
  change (r ∉ m.*2) in Hr.
  unfold contents in *. rewrite !fmap_cons. simpl.
  destruct (decide (r = r0)) as [->|Hne].
  - rewrite deref_heapPush_eq by done.
    fold (contents (heapPush h r0 x) m). rewrite contents_heapPush_notin by done.
    unfold contents. rewrite <- !app_assoc. apply Permutation_app_head.
    apply Permutation_app_comm.
  - rewrite deref_heapPush_ne by done.
    apply elem_of_cons in Hin as [[= -> ->]|Hin]; [done|].
    rewrite (IH Hnd Hin). by rewrite app_assoc.
Qed.

Lemma groupOf_snoc k blobs blob :
  groupOf k (blobs ++ [blob]) =
  groupOf k blobs ++ (if hasKey k blob then [toFileInfo blob] else []).
Proof.
  unfold groupOf. rewrite filter_app, fmap_app. f_equal.
  rewrite filter_cons_bool. by destruct (hasKey k blob).
Qed.

Lemma groupOf_empty k blobs :
  (forall blob, blob ∈ blobs -> isRoot blob = true -> getGroupKey (blob_name blob) <> k) ->
  groupOf k blobs = [].
Proof.
  intros H. unfold groupOf. induction blobs as [|b blobs IH]; [done|].
  rewrite filter_cons_bool.
  assert (hasKey k b = false) as ->.
  { unfold hasKey. destruct (isRoot b) eqn:Eb; [|done]. simpl.
    apply String.eqb_neq. apply H; [left | done]. }
  apply IH. intros b' Hb'. apply H. by right.
Qed.

Lemma groupingInv_init : groupingInv [] (mkGroupState [] [] 0%nat 0%nat).
Proof.
  unfold groupingInv. simpl.
  split; [done|]. split; [done|]. split; [constructor|]. split; [constructor|].
  split; [constructor|]. split; [|split; [|done]].
  - intros k r H. by apply elem_of_nil in H.
  - intros b H. by apply elem_of_nil in H.
Qed.

Lemma isRoot_not_nested blob : isRoot blob = negb (isNested blob).
Proof. done. Qed.

Lemma hasKey_own blob :
  isNested blob = false -> hasKey (getGroupKey (blob_name blob)) blob = true.
Proof. intros H. unfold hasKey, isRoot. by rewrite H, String.eqb_refl. Qed.

Lemma hasKey_other k blob : getGroupKey (blob_name blob) <> k -> hasKey k blob = false.
Proof.
  intros H. unfold hasKey. apply String.eqb_neq in H. rewrite H. apply andb_false_r.
Qed.

Lemma groupingInv_step blobs st blob :
  groupingInv blobs st -> groupingInv (blobs ++ [blob]) (groupStep st blob).
Proof.
  intros (Ht & Hn & Hk & Hr & Hb & Hg & Hroot & Hperm).
  destruct (isNested blob) eqn:En.
  - (* a nested blob is counted and skipped *)
    rewrite groupStep_nested by done. unfold groupingInv. simpl.
    rewrite !filter_app, !filter_cons_bool, isRoot_not_nested, En. simpl.
    rewrite !length_app, app_nil_r. simpl.
    split; [lia|]. split; [lia|]. split; [done|]. split; [done|]. split; [done|].
    split; [|split; [|done]].
    + intros k r Hin. rewrite groupOf_snoc.
      unfold hasKey. rewrite isRoot_not_nested, En. simpl. rewrite app_nil_r. auto.
    + intros b Hin Hb'. apply elem_of_app in Hin as [Hin|Hin]; [auto|].
      apply list_elem_of_singleton in Hin as ->.
      rewrite isRoot_not_nested, En in Hb'. done.
  - destruct (mapGet (groupedFiles st) (getGroupKey (blob_name blob))) as [r0|] eqn:Eg.
    + (* the key is present: the record is pushed onto its array *)
      rewrite (groupStep_existing _ _ r0) by done. unfold groupingInv. simpl.
      pose proof (mapGet_Some_elem_of _ _ _ Eg) as Hin0.
      assert (Hlt : (r0 < length (gheap st))%nat).
      { rewrite Forall_forall in Hb. apply Hb.
        change r0 with (getGroupKey (blob_name blob), r0).2.
        by apply list_elem_of_fmap_2. }
      rewrite !filter_app, !filter_cons_bool, isRoot_not_nested, En. simpl.
      rewrite !length_app. simpl.
      split; [lia|]. split; [lia|]. split; [done|]. split; [done|].
      split; [unfold heapPush; by rewrite length_alter|].
      split; [|split].
      * intros k r Hin. rewrite groupOf_snoc.
        destruct (Hg k r Hin) as [Hd Hne].
        destruct (decide (r = r0)) as [->|Hrne].
        -- assert (Heq : (k, r0) = (getGroupKey (blob_name blob), r0))
             by (by apply (NoDup_fmap_elem_inj snd (groupedFiles st))).
           injection Heq as ->. rewrite hasKey_own by done.
           rewrite deref_heapPush_eq by done. rewrite Hd. split; [done|].
           intros Hnil. by apply app_eq_nil in Hnil as [_ ?].
        -- assert (Hkne : getGroupKey (blob_name blob) <> k).
           { intros <-. apply Hrne.
             assert (Heq : (getGroupKey (blob_name blob), r) =
                           (getGroupKey (blob_name blob), r0))
               by (by apply (NoDup_fmap_elem_inj fst (groupedFiles st))).
             by injection Heq. }
           rewrite hasKey_other by done. rewrite app_nil_r.
           by rewrite deref_heapPush_ne.
      * intros b Hin Hb'. apply elem_of_app in Hin as [Hin|Hin]; [auto|].
        apply list_elem_of_singleton in Hin as ->.
        change (getGroupKey (blob_name blob)) with (getGroupKey (blob_name blob), r0).1.
        by apply list_elem_of_fmap_2.
      * rewrite (concat_contents_heapPush _ _ _ _ _ Hr Hin0 Hlt).
        by rewrite Hperm, fmap_app.
    + (* a new key: a fresh array holding the record is added to the Map *)
      rewrite groupStep_fresh by done. unfold groupingInv. simpl.
      pose proof (proj1 (mapGet_None _ _) Eg) as Hfresh.
      rewrite !filter_app, !filter_cons_bool, isRoot_not_nested, En. simpl.
      rewrite !length_app, !fmap_app. simpl.
      split; [lia|]. split; [lia|].
      split; [|split; [|split; [|split; [|split]]]].
      * apply NoDup_app. split; [done|]. split; [|apply NoDup_singleton].
        intros k Hk' Hk''. apply list_elem_of_singleton in Hk'' as ->. done.
      * apply NoDup_app. split; [done|]. split; [|apply NoDup_singleton].
        intros r Hr' Hr''. apply list_elem_of_singleton in Hr'' as ->.
        rewrite Forall_forall in Hb. specialize (Hb _ Hr'). lia.
      * apply Forall_app. split.
        -- eapply Forall_impl; [exact Hb|]. intros r Hr'. simpl in Hr'. lia.
        -- repeat constructor. lia.
      * intros k r Hin. rewrite groupOf_snoc.
        apply elem_of_app in Hin as [Hin|Hin].
        -- destruct (Hg k r Hin) as [Hd Hne].
           assert (Hlt : (r < length (gheap st))%nat).
           { rewrite Forall_forall in Hb. apply Hb.
             change r with (k, r).2. by apply list_elem_of_fmap_2. }
           assert (Hkne : getGroupKey (blob_name blob) <> k).
           { intros <-. apply Hfresh.
             change (getGroupKey (blob_name blob)) with (getGroupKey (blob_name blob), r).1.
             by apply list_elem_of_fmap_2. }
           rewrite hasKey_other by done. rewrite app_nil_r.
           by rewrite deref_app_l.
        -- apply list_elem_of_singleton in Hin as [= -> ->].
           rewrite hasKey_own by done.
           rewrite groupOf_empty.
           ++ split; [|done]. unfold deref. by rewrite list_lookup_middle.
           ++ intros b Hin Hb' Heq. apply Hfresh. rewrite <- Heq. by apply Hroot.
      * intros b Hin Hb'. apply elem_of_app. apply elem_of_app in Hin as [Hin|Hin]; [left; auto|].
        apply list_elem_of_singleton in Hin as ->. right. left.
      * unfold contents. rewrite !fmap_app. simpl.
        fold (contents (gheap st ++ [[toFileInfo blob]]) (groupedFiles st)).
        rewrite contents_app_heap by done.
        rewrite concat_app. simpl. rewrite app_nil_r.
        unfold deref. rewrite list_lookup_middle by done. simpl.
        by rewrite Hperm.
Qed.

Lemma groupLoop_inv blobs : groupingInv blobs (groupLoop blobs).
Proof.
  unfold groupLoop. induction blobs as [|blob blobs IH] using rev_ind.
  - apply groupingInv_init.
  - rewrite foldl_snoc. by apply groupingInv_step.
Qed.

(** ** The saving phase: what can be written at all *)

Lemma fromQualifying_sorted h m x :
  fromQualifying h (sortedGroupEntries h m) x -> fromQualifying h m x.
Proof.
  intros (e & He & Hq & Hx). exists e.
  split; [by apply (sortedGroupEntries_elem_of h m) | auto].
Qed.

Lemma reportOfQualifying_sorted h m ev :
  reportOfQualifying h (sortedGroupEntries h m) ev -> reportOfQualifying h m ev.
Proof.
  intros (e & d & fs & He & Hq & Hev). exists e, d, fs.
  split; [by apply (sortedGroupEntries_elem_of h m) | auto].
Qed.

(** The events after the loop, whatever throws: those of the loop, then
    the exports of the accumulated records and the excess-only report,
    each only when it has a record to show. *)
Lemma saveAggregates_events rt s ev :
  ev ∈ (saveAggregates rt s).1 ->
  ev ∈ trace s \/
  (alldata s <> [] /\
   (ev = WriteFile csvPath (CsvExport (alldata s)) \/
    ev = WriteFile jsonPath (JsonExport (alldata s)))) \/
  (earliestTotals s <> [] /\
   ev = WriteFile earliestPath
          (EarliestReport (engineSort rt compareLastModified (earliestTotals s)))).
Proof.
  unfold saveAggregates, writeToCsv, writeToJson, saveEarliestFileRecords, bunWrite.
  assert (Hne : forall l : list FileInfo, (0 <? length l)%nat = true -> l <> []).
  { intros l H Hnil. rewrite Hnil in H. done. }
  destruct (0 <? length (alldata s))%nat eqn:Ea;
    [destruct (writeOk rt csvPath); [destruct (writeOk rt jsonPath)|]|];
    destruct (0 <? length (earliestTotals s))%nat eqn:Ee;
    try destruct (writeOk rt earliestPath);
    simpl; intros Hev; repeat (apply elem_of_app in Hev as [Hev|Hev]);
    try (apply list_elem_of_singleton in Hev); auto.
Qed.

(** Every event of the phase, whatever throws: the directory creation,
    the error line of the [catch], the report of a qualifying group, an
    export or the excess-only report, the last three non-empty and made
    of records of qualifying groups only. *)
Lemma reorderAndSave_events rt (m : JsMap) h ev :
  ev ∈ events (reorderAndSaveGroupedFiles rt m h) ->
  ev = Mkdir "./output" \/ ev = ErrorLogged \/ reportOfQualifying h m ev \/
  (exists rows,
     (ev = WriteFile csvPath (CsvExport rows) \/ ev = WriteFile jsonPath (JsonExport rows) \/
      ev = WriteFile earliestPath (EarliestReport rows)) /\
     rows <> [] /\ forall x, x ∈ rows -> fromQualifying h m x).
Proof.
  unfold reorderAndSaveGroupedFiles.
  set (created := if outputDirExists rt then Some []
                  else if mkdirOk rt then Some [Mkdir "./output"%string] else None).
  assert (Hcreated : forall t0, created = Some t0 ->
            forall e, e ∈ t0 -> e = Mkdir "./output"%string).
  { subst created. intros t0 Ht0 e He.
    destruct (outputDirExists rt); [injection Ht0 as <-; by apply elem_of_nil in He|].
    destruct (mkdirOk rt); [|done]. injection Ht0 as <-.
    by apply list_elem_of_singleton in He. }
  destruct created as [t0|]; [|intros Hev; apply list_elem_of_singleton in Hev; auto].
  specialize (Hcreated t0 eq_refl).
  pose proof (saveGroups_sound rt h (sortedGroupEntries h m)
                (mkSaveState h [] [] 0%nat t0)) as Hsound.
  destruct (saveGroups rt (sortedGroupEntries h m) (mkSaveState h [] [] 0%nat t0))
    as [s completed].
  destruct Hsound as (_ & Het & Had & Htr); [simpl; reflexivity|].
  simpl in Het, Had, Htr.
  assert (Htrace : forall e, e ∈ trace s ->
            e = Mkdir "./output"%string \/ reportOfQualifying h m e).
  { intros e He. destruct (Htr e He) as [?|?]; [left; auto|].
    right. by apply reportOfQualifying_sorted. }
  assert (Hall : forall x, x ∈ alldata s -> fromQualifying h m x).
  { intros x Hx. destruct (Had x Hx) as [Hnil|?]; [by apply elem_of_nil in Hnil|].
    by apply fromQualifying_sorted. }
  assert (Hexc : forall x, x ∈ engineSort rt compareLastModified (earliestTotals s) ->
                           fromQualifying h m x).
  { intros x Hx. apply engineSort_elem_of in Hx.
    destruct (Het x Hx) as [Hnil|?]; [by apply elem_of_nil in Hnil|].
    by apply fromQualifying_sorted. }
  assert (Hfail : forall e, e ∈ trace s ++ [ErrorLogged] ->
            e = Mkdir "./output"%string \/ e = ErrorLogged \/ reportOfQualifying h m e \/
            (exists rows,
               (e = WriteFile csvPath (CsvExport rows) \/
                e = WriteFile jsonPath (JsonExport rows) \/
                e = WriteFile earliestPath (EarliestReport rows)) /\
               rows <> [] /\ forall x, x ∈ rows -> fromQualifying h m x)).
  { intros e He. apply elem_of_app in He as [He|He].
    - destruct (Htrace e He); auto.
    - apply list_elem_of_singleton in He. auto. }
  destruct completed; [|exact (Hfail ev)].
  pose proof (saveAggregates_events rt s ev) as Hagg.
  destruct (saveAggregates rt s) as [t finished]. simpl in Hagg. simpl.
  intros Hev.
  assert (Hev' : ev ∈ t \/ ev = ErrorLogged).
  { destruct finished; [by left|].
    apply elem_of_app in Hev as [?|Hev]; [by left|].
    apply list_elem_of_singleton in Hev. by right. }
  destruct Hev' as [Hev'|Hev']; [|by auto].
  destruct (Hagg Hev') as [Htr'|[[Hne Hexp]|[Hne ->]]].
  - destruct (Htrace ev Htr'); auto.
  - right; right; right. exists (alldata s).
    split; [destruct Hexp; auto|]. split; [done|]. done.
  - right; right; right. exists (engineSort rt compareLastModified (earliestTotals s)).
    split; [auto|]. split; [|done].
    intros Hnil. apply Hne. apply (f_equal length) in Hnil.
    rewrite engineSort_length in Hnil. by destruct (earliestTotals s).
Qed.

Lemma groupLoop_groupKeyed blobs :
  groupKeyed (gheap (groupLoop blobs)) (groupedFiles (groupLoop blobs)).
Proof.
  destruct (groupLoop_inv blobs) as (_ & _ & _ & _ & _ & Hg & _).
  intros k r x Hin Hx. destruct (Hg k r Hin) as [Hd _]. rewrite Hd in Hx.
  unfold groupOf in Hx. apply list_elem_of_fmap in Hx as (b & -> & Hb).
  apply list_elem_of_filter in Hb as [Hb _]. apply Is_true_eq_true in Hb.
  unfold hasKey in Hb. apply andb_true_iff in Hb as [_ Hb].
  by apply String.eqb_eq in Hb.
Qed.

Lemma not_qualifies_small h k r :
  (length (deref h r) < 3)%nat -> qualifies h (k, r) = true -> False.
Proof.
  unfold qualifies. simpl. intros Hlt Hq.
  apply negb_true_iff, Nat.ltb_ge in Hq. lia.
Qed.

(** C7.  A group with fewer than three records contributes nothing: no
    per-group report carries its key, none of its records is a row of
    alldata.csv or alldata.json or a line of earliest_totals.txt, and
    every record that is written there belongs to a group of at least
    three records.  The Map has distinct keys and files each record under
    the key of its name, as grouping builds it. *)
Theorem small_group_contributes_nothing (rt : Runtime) (m : JsMap) (h : Heap)
    (k : string) (r : Ref) :
  NoDup m.*1 -> groupKeyed h m -> (k, r) ∈ m -> (length (deref h r) < 3)%nat ->
  let evs := events (reorderAndSaveGroupedFiles rt m h) in
  (forall path earliest fs, WriteFile path (GroupReport k earliest fs) ∉ evs) /\
  (forall path rows x,
     WriteFile path (CsvExport rows) ∈ evs \/ WriteFile path (JsonExport rows) ∈ evs \/
     WriteFile path (EarliestReport rows) ∈ evs ->
     x ∈ deref h r -> x ∉ rows) /\
  (forall path rows x,
     WriteFile path (CsvExport rows) ∈ evs \/ WriteFile path (JsonExport rows) ∈ evs \/
     WriteFile path (EarliestReport rows) ∈ evs ->
     x ∈ rows -> fromQualifying h m x).
Proof.
  intros Hnd Hkeyed Hin Hsmall evs.
  assert (Hrows : forall path rows x,
     WriteFile path (CsvExport rows) ∈ evs \/ WriteFile path (JsonExport rows) ∈ evs \/
     WriteFile path (EarliestReport rows) ∈ evs ->
     x ∈ rows -> fromQualifying h m x).
  { intros path rows x Hev Hx.
    destruct Hev as [Hev|[Hev|Hev]];
      apply reorderAndSave_events in Hev
        as [Hev|[Hev|[(e & d & fs & _ & _ & Hev)|(rows' & Hev & _ & Hfrom)]]];
      try discriminate;
      destruct Hev as [Hev|[Hev|Hev]]; try discriminate;
      injection Hev as _ <-; auto. }
  split; [|split; [|exact Hrows]].
  - intros path earliest fs Hev.
    apply reorderAndSave_events in Hev
      as [Hev|[Hev|[(e & d & fs' & He & Hq & Hev)|(rows & Hev & _)]]];
      try discriminate.
    + injection Hev as _ Hk _ _.
      assert (e = (k, r)) as -> by (by apply (NoDup_fmap_elem_inj fst m)).
      by apply (not_qualifies_small h k r).
    + destruct Hev as [Hev|[Hev|Hev]]; discriminate.
  - intros path rows x Hev Hx Hxr.
    destruct (Hrows path rows x Hev Hxr) as (e & He & Hq & Hxe).
    assert (e = (k, r)) as ->.
    { apply (NoDup_fmap_elem_inj fst m); [done..|]. simpl.
      destruct e as [k' r']. simpl in *.
      rewrite <- (Hkeyed k' r' x He Hxe). by apply (Hkeyed k r x). }
    by apply (not_qualifies_small h k r).
Qed.

(** Case analysis on membership in an explicit list. *)
Ltac elem_cases H :=
  repeat first
    [ apply elem_of_nil in H; contradiction
    | apply elem_of_cons in H as [H|H] ].

Lemma small_group_contributes_nothing_witness :
  let blobs := [mkBlobItem "a.1.js" (Some 10); mkBlobItem "b.1.js" (Some 20);
                mkBlobItem "a.2.js" (Some 30); mkBlobItem "a.3.js" (Some 40);
                mkBlobItem "b.2.js" (Some 50)] in
  let st := groupLoop blobs in
  let rt := mkRuntime codeUnitCompare true true
              (fun path => negb (String.eqb path jsonPath)) binaryPlacement in
  let evs := events (reorderAndSaveGroupedFiles rt (groupedFiles st) (gheap st)) in
  let a := [mkFileInfo "a.1.js" (Some 10); mkFileInfo "a.2.js" (Some 30);
            mkFileInfo "a.3.js" (Some 40)] in
  groupedFiles st = [("a"%string, 0%nat); ("b"%string, 1%nat)] /\
  deref (gheap st) 1 = [mkFileInfo "b.1.js" (Some 20); mkFileInfo "b.2.js" (Some 50)] /\
  evs = [WriteFile "output/a.txt" (GroupReport "a" (Some 10) a);
         WriteFile csvPath (CsvExport a); ErrorLogged] /\
  (forall path earliest fs, WriteFile path (GroupReport "b" earliest fs) ∉ evs) /\
  (forall path rows,
     WriteFile path (CsvExport rows) ∈ evs \/ WriteFile path (JsonExport rows) ∈ evs \/
     WriteFile path (EarliestReport rows) ∈ evs ->
     mkFileInfo "b.1.js" (Some 20) ∉ rows).
Proof.
  intros blobs st rt evs a.
  assert (Hnd : NoDup (groupedFiles st).*1).
  { apply (bool_decide_unpack _). vm_compute. exact I. }
  assert (Hkeyed : groupKeyed (gheap st) (groupedFiles st)).
  { intros k r x Hin Hx. vm_compute in Hin. elem_cases Hin.
    all: injection Hin as -> ->; vm_compute in Hx; elem_cases Hx; subst x; reflexivity. }
  assert (Hin : ("b"%string, 1%nat) ∈ groupedFiles st).
  { apply (bool_decide_unpack _). vm_compute. exact I. }
  assert (Hsmall : (length (deref (gheap st) 1) < 3)%nat).
  { vm_compute. lia. }
  destruct (small_group_contributes_nothing rt (groupedFiles st) (gheap st)
              "b" 1%nat Hnd Hkeyed Hin Hsmall) as (Hreport & Hrows & _).
  split; [reflexivity|]. split; [reflexivity|]. split; [reflexivity|].
  split; [exact Hreport|].
  intros path rows Hev. apply (Hrows path rows _ Hev).
  vm_compute. left.
Defined.

(** ** The display sort *)

(** C4 as stated fails: the array held in the Map is the one that is
    sorted.  Listed as app.2.js, app.1.js, app.3.js, the group is held
    as app.1.js, app.2.js, app.3.js once the reports are written. *)
Lemma group_index_mutated :
  let env := mkEnvironment (Some "UseDevelopmentStorage=true"%string) (Some "web"%string) true
               (Some [mkBlobItem "app.2.js" (Some 10); mkBlobItem "app.1.js" (Some 20);
                      mkBlobItem "app.3.js" (Some 30)]) in
  exists st,
    listAndGroupContainerFiles env = Some st /\
    contents (gheap st) (groupedFiles st) =
      [("app"%string, [mkFileInfo "app.2.js" (Some 10); mkFileInfo "app.1.js" (Some 20);
                       mkFileInfo "app.3.js" (Some 30)])] /\
    contents
      (finalHeap (reorderAndSaveGroupedFiles sampleRuntime (groupedFiles st) (gheap st)))
      (groupedFiles st) =
      [("app"%string, [mkFileInfo "app.1.js" (Some 20); mkFileInfo "app.2.js" (Some 10);
                       mkFileInfo "app.3.js" (Some 30)])] /\
    contents
      (finalHeap (reorderAndSaveGroupedFiles sampleRuntime (groupedFiles st) (gheap st)))
      (groupedFiles st) <> contents (gheap st) (groupedFiles st).
Proof.
  intros env. eexists. split; [reflexivity|].
  split; [reflexivity|]. split; [reflexivity|]. vm_compute. discriminate.
Qed.

(** C4, amended.  The display sort is done in place, on the group's own
    array: when no file operation throws and the groups are distinct
    arrays, after the report phase the Map holds every group of at least
    three records sorted ascending by name, a rearrangement of its listing
    order, and every smaller group as it was listed. *)
Theorem display_sort_in_place (rt : Runtime) (m : JsMap) (h : Heap) :
  ioSucceeds rt -> NoDup m.*2 ->
  contents (finalHeap (reorderAndSaveGroupedFiles rt m h)) m =
    afterReport rt <$> contents h m /\
  Forall2 (fun before after => before.1 = after.1 /\ before.2 ≡ₚ after.2)
    (contents h m) (contents (finalHeap (reorderAndSaveGroupedFiles rt m h)) m).
Proof.
  intros Hio Hnd.
  destruct (reorderAndSave_complete rt m h Hio Hnd) as [_ Hheap].
  assert (Heq : contents (finalHeap (reorderAndSaveGroupedFiles rt m h)) m =
                afterReport rt <$> contents h m).
  { unfold contents. rewrite <- list_fmap_compose.
    apply Forall_fmap_ext_1, Forall_forall. intros e He.
    unfold afterReport, compose. simpl. rewrite (Hheap e He).
    unfold qualifies. by destruct (length (deref h e.2) <? 3)%nat. }
  split; [exact Heq|]. rewrite Heq.
  apply Forall2_fmap_r, Forall_Forall2_diag, Forall_forall.
  intros g _. unfold afterReport. simpl. split; [done|].
  destruct (length g.2 <? 3)%nat; [done | by rewrite sort_perm].
Qed.

Lemma display_sort_in_place_witness :
  let files := [mkFileInfo "app.2.js" (Some 10); mkFileInfo "app.1.js" (Some 20);
                mkFileInfo "app.3.js" (Some 30)] in
  let small := [mkFileInfo "z.2.css" (Some 5); mkFileInfo "z.1.css" (Some 6)] in
  let m := [("app"%string, 0%nat); ("z"%string, 1%nat)] in
  contents (finalHeap (reorderAndSaveGroupedFiles sampleRuntime m [files; small])) m =
    [("app"%string, [mkFileInfo "app.1.js" (Some 20); mkFileInfo "app.2.js" (Some 10);
                     mkFileInfo "app.3.js" (Some 30)]);
     ("z"%string, small)].
Proof.
  intros files small m.
  assert (Hio : ioSucceeds sampleRuntime) by (split; [by left | reflexivity]).
  assert (Hnd : NoDup m.*2) by (apply (bool_decide_unpack _); vm_compute; exact I).
  destruct (display_sort_in_place sampleRuntime m [files; small] Hio Hnd) as [-> _].
  reflexivity.
Defined.

(** ** The aggregate artifacts *)

Lemma listAndGroup_groupLoop env st :
  listAndGroupContainerFiles env = Some st ->
  exists blobs, listBlobsFlat env = Some blobs /\ st = groupLoop blobs.
Proof.
  unfold listAndGroupContainerFiles.
  destruct (negb (truthy (connectionString env))); [done|].
  destruct (negb (truthy (containerName env))); [done|].
  destruct (negb (containerExists env)); [done|].
  destruct (listBlobsFlat env) as [blobs|]; [|done].
  intros [= <-]. by exists blobs.
Qed.

(** C8 as stated fails: the exports and the summary are written only
    when some group holds at least three records.  A container with two
    files of one group is listed and nothing at all is written. *)
Lemma no_qualifying_group_writes_nothing :
  let env := mkEnvironment (Some "UseDevelopmentStorage=true"%string) (Some "web"%string) true
               (Some [mkBlobItem "app.1.js" (Some 10); mkBlobItem "app.2.js" (Some 20)]) in
  exists res,
    main sampleRuntime env = Some res /\
    events res = [] /\
    ~ written csvPath (events res) /\
    ~ written jsonPath (events res) /\
    ~ written earliestPath (events res).
Proof.
  intros env. eexists. split; [reflexivity|]. split; [reflexivity|].
  repeat split; intros [c Hc]; vm_compute in Hc; by apply elem_of_nil in Hc.
Qed.

(** C8, amended.  On a run whose listing is grouped and whose file
    operations do not throw, alldata.csv, alldata.json and
    earliest_totals.txt are written when at least one group holds three
    records or more, and none of them is written otherwise. *)
Theorem aggregates_written_iff_qualifying (rt : Runtime) (env : Environment)
    (st : GroupState) :
  ioSucceeds rt ->
  listAndGroupContainerFiles env = Some st ->
  let evs := events (reorderAndSaveGroupedFiles rt (groupedFiles st) (gheap st)) in
  ((exists e, e ∈ groupedFiles st /\ qualifies (gheap st) e = true) ->
     written csvPath evs /\ written jsonPath evs /\ written earliestPath evs) /\
  (~ (exists e, e ∈ groupedFiles st /\ qualifies (gheap st) e = true) ->
     ~ written csvPath evs /\ ~ written jsonPath evs /\ ~ written earliestPath evs).
Proof.
  intros Hio Hst evs. apply listAndGroup_groupLoop in Hst as (blobs & _ & Hst).
  split.
  - intros (e & He & Hq).
    assert (Hnd : NoDup (groupedFiles st).*2).
    { subst st. by destruct (groupLoop_inv blobs) as (_ & _ & _ & ? & _). }
    destruct (reorderAndSave_complete rt (groupedFiles st) (gheap st) Hio Hnd) as [Hev _].
    fold evs in Hev.
    assert (HQ : (e.1, deref (gheap st) e.2) ∈
                 qualifyingGroups (gheap st) (sortedGroupEntries (gheap st) (groupedFiles st))).
    { apply qualifyingGroups_elem_of. exists e.
      split; [by apply sortedGroupEntries_elem_of | done]. }
    destruct (qualifyingGroups (gheap st) (sortedGroupEntries (gheap st) (groupedFiles st)))
      as [|g Q]; [by apply elem_of_nil in HQ|].
    rewrite Hev. unfold written.
    split; [|split]; eexists; rewrite !elem_of_app; right; right.
    + left.
    + right. left.
    + right. right. left.
  - intros Hnone.
    assert (Hno : forall path c, WriteFile path c ∉ evs).
    { intros path c Hev. apply Hnone.
      apply reorderAndSave_events in Hev
        as [Hev|[Hev|[(e & d & fs & He & Hq & _)|(rows & _ & Hne & Hfrom)]]];
        try discriminate.
      - by exists e.
      - destruct rows as [|x rows]; [done|].
        destruct (Hfrom x) as (e & He & Hq & _); [left|]. by exists e. }
    repeat split; intros [c Hc]; by apply Hno in Hc.
Qed.

Lemma aggregates_written_iff_qualifying_witness :
  let blobs := [mkBlobItem "app.1.js" (Some 10); mkBlobItem "app.2.js" (Some 20);
                mkBlobItem "app.3.js" (Some 30)] in
  let env := mkEnvironment (Some "UseDevelopmentStorage=true"%string) (Some "web"%string) true
               (Some blobs) in
  let st := groupLoop blobs in
  let evs := events (reorderAndSaveGroupedFiles sampleRuntime (groupedFiles st) (gheap st)) in
  written csvPath evs /\ written jsonPath evs /\ written earliestPath evs.
Proof.
  intros blobs env st evs.
  assert (Hio : ioSucceeds sampleRuntime) by (split; [by left | reflexivity]).
  destruct (aggregates_written_iff_qualifying sampleRuntime env st Hio eq_refl)
    as [Hyes _].
  apply Hyes. exists ("app"%string, 0%nat).
  split; [apply (bool_decide_unpack _); vm_compute; exact I | reflexivity].
Defined.

(** ** Grouping *)

Lemma length_filter_root_nested blobs :
  (length (filter isNested blobs) + length (filter isRoot blobs) = length blobs)%nat.
Proof.
  induction blobs as [|b blobs IH]; [done|].
  rewrite !filter_cons_bool, isRoot_not_nested.
  destruct (isNested b); simpl; lia.
Qed.

Lemma contents_keys h (m : JsMap) : (contents h m).*1 = m.*1.
Proof. unfold contents. by rewrite <- list_fmap_compose. Qed.

Lemma contents_elem_of h (m : JsMap) k files :
  (k, files) ∈ contents h m <-> exists r, (k, r) ∈ m /\ files = deref h r.
Proof.
  unfold contents. rewrite list_elem_of_fmap. split.
  - intros ([k' r] & [= -> ->] & Hin). by exists r.
  - intros (r & Hin & ->). by exists (k, r).
Qed.

Lemma groupOf_elem_of k blobs x :
  x ∈ groupOf k blobs <->
  exists blob, x = toFileInfo blob /\ blob ∈ blobs /\ isNested blob = false /\
               getGroupKey (blob_name blob) = k.
Proof.
  unfold groupOf. rewrite list_elem_of_fmap. split.
  - intros (b & -> & Hb). apply list_elem_of_filter in Hb as [Hk Hb].
    apply Is_true_eq_true in Hk. unfold hasKey, isRoot in Hk.
    apply andb_true_iff in Hk as [Hr Hk].
    apply negb_true_iff in Hr. apply String.eqb_eq in Hk. by exists b.
  - intros (b & -> & Hb & Hn & Hk). exists b. split; [done|].
    apply list_elem_of_filter. split; [|done].
    apply Is_true_true. subst k. by apply hasKey_own.
Qed.

(** C6.  Grouping partitions the listing.  Every blob is counted; the
    blobs whose name contains '/' are exactly those counted as skipped,
    and none of them is in a group; every other blob is in the group of
    the key of its name and in no group of another key; each group holds,
    in listing order, the root-level blobs of its key; the groups together
    hold the root-level blobs, none twice and none missing; and the
    skipped count plus the sizes of the groups is the total count. *)
Theorem grouping_partition (blobs : list BlobItem) :
  let st := groupLoop blobs in
  let groups := contents (gheap st) (groupedFiles st) in
  totalFilesConsidered st = length blobs /\
  nestedFileCount st = length (filter (fun b => includes (blob_name b) "/") blobs) /\
  NoDup groups.*1 /\
  (forall k files, (k, files) ∈ groups -> files = groupOf k blobs) /\
  (forall blob, blob ∈ blobs -> includes (blob_name blob) "/" = true ->
     forall k files, (k, files) ∈ groups -> toFileInfo blob ∉ files) /\
  (forall blob, blob ∈ blobs -> includes (blob_name blob) "/" = false ->
     exists files,
       (getGroupKey (blob_name blob), files) ∈ groups /\ toFileInfo blob ∈ files /\
       forall k' files', (k', files') ∈ groups -> toFileInfo blob ∈ files' ->
                         k' = getGroupKey (blob_name blob)) /\
  concat groups.*2 ≡ₚ toFileInfo <$> filter isRoot blobs /\
  (nestedFileCount st + list_sum (map length groups.*2) = totalFilesConsidered st)%nat.
Proof.
  intros st groups.
  destruct (groupLoop_inv blobs) as (Ht & Hn & Hk & Hr & Hb & Hg & Hroot & Hperm).
  fold st in Ht, Hn, Hk, Hr, Hb, Hg, Hroot, Hperm. fold groups in Hperm.
  assert (Hgroups : forall k files, (k, files) ∈ groups -> files = groupOf k blobs).
  { intros k files Hin. apply contents_elem_of in Hin as (r & Hin & ->).
    by destruct (Hg k r Hin). }
  split; [done|]. split; [done|].
  split; [subst groups; by rewrite contents_keys|].
  split; [done|]. split; [|split; [|split; [done|]]].
  - intros blob _ Hnested k files Hin Hx.
    rewrite (Hgroups k files Hin) in Hx.
    apply groupOf_elem_of in Hx as (b' & Heq & _ & Hn' & _).
    unfold isNested in Hn'. injection Heq as Hname _. congruence.
  - intros blob Hin Hn'.
    assert (Hkey : getGroupKey (blob_name blob) ∈ (groupedFiles st).*1).
    { apply Hroot; [done|]. unfold isRoot, isNested. by rewrite Hn'. }
    apply list_elem_of_fmap in Hkey as ([k r] & Hk' & Hkr). simpl in Hk'. subst k.
    exists (deref (gheap st) r). split; [|split].
    + apply contents_elem_of. by exists r.
    + destruct (Hg _ _ Hkr) as [-> _]. apply groupOf_elem_of. by exists blob.
    + intros k' files' Hin' Hx. rewrite (Hgroups k' files' Hin') in Hx.
      apply groupOf_elem_of in Hx as (b' & Heq & _ & _ & <-).
      injection Heq as Hname _. by rewrite Hname.
  - rewrite <- length_concat, Hperm, length_fmap, Ht, Hn.
    apply length_filter_root_nested.
Qed.

(** ** Names without a dot *)

(** C10.  Two root-level blobs whose names contain no dot get the same
    key, the empty string, and are filed in one group; once that group
    holds three records its records but the last two are listed as excess
    in earliest_totals.txt. *)
Theorem extensionless_share_group (rt : Runtime) (blobs : list BlobItem)
    (a b : BlobItem) :
  a ∈ blobs -> b ∈ blobs ->
  includes (blob_name a) "/" = false -> includes (blob_name b) "/" = false ->
  includes (blob_name a) "." = false -> includes (blob_name b) "." = false ->
  let st := groupLoop blobs in
  getGroupKey (blob_name a) = getGroupKey (blob_name b) /\
  exists r,
    mapGet (groupedFiles st) (getGroupKey (blob_name a)) = Some r /\
    toFileInfo a ∈ deref (gheap st) r /\ toFileInfo b ∈ deref (gheap st) r /\
    ((3 <= length (deref (gheap st) r))%nat -> ioSucceeds rt ->
     exists out,
       WriteFile earliestPath (EarliestReport out) ∈
         events (reorderAndSaveGroupedFiles rt (groupedFiles st) (gheap st)) /\
       forall x, x ∈ slice (deref (gheap st) r) 0 (-2) -> x ∈ out).
Proof.
  intros Ha Hb Hra Hrb Hda Hdb st.
  rewrite (getGroupKey_without_dot _ Hda), (getGroupKey_without_dot _ Hdb).
  split; [done|].
  destruct (groupLoop_inv blobs) as (_ & _ & Hk & Hr & _ & Hg & Hroot & _).
  fold st in Hk, Hr, Hg, Hroot.
  assert (Hkey : ""%string ∈ (groupedFiles st).*1).
  { rewrite <- (getGroupKey_without_dot _ Hda). apply Hroot; [done|].
    unfold isRoot, isNested. by rewrite Hra. }
  apply list_elem_of_fmap in Hkey as ([k r] & Hk' & Hkr). simpl in Hk'. subst k.
  exists r. destruct (Hg _ _ Hkr) as [Hd _].
  split; [by apply mapGet_NoDup|].
  split; [rewrite Hd; apply groupOf_elem_of; exists a;
          by rewrite (getGroupKey_without_dot _ Hda)|].
  split; [rewrite Hd; apply groupOf_elem_of; exists b;
          by rewrite (getGroupKey_without_dot _ Hdb)|].
  intros Hsize Hio.
  destruct (reorderAndSave_complete rt (groupedFiles st) (gheap st) Hio Hr) as [Hev _].
  assert (HQ : (""%string, deref (gheap st) r) ∈
               qualifyingGroups (gheap st) (sortedGroupEntries (gheap st) (groupedFiles st))).
  { apply qualifyingGroups_elem_of. exists (""%string, r).
    split; [by apply sortedGroupEntries_elem_of|]. split; [|done].
    unfold qualifies. simpl. apply negb_true_iff, Nat.ltb_ge. done. }
  remember (qualifyingGroups (gheap st) (sortedGroupEntries (gheap st) (groupedFiles st)))
    as Q eqn:EQ.
  eexists. split.
  - rewrite Hev. destruct Q as [|g Q']; [by apply elem_of_nil in HQ|].
    rewrite !elem_of_app. right. right. right. right. left.
  - intros x Hx. apply engineSort_elem_of. apply list_elem_of_In, in_concat.
    exists (slice (deref (gheap st) r) 0 (-2)). split; [|by apply list_elem_of_In].
    apply list_elem_of_In in HQ.
    apply (in_map (fun g : string * list FileInfo => slice g.2 0 (-2))) in HQ. exact HQ.
Qed.

Lemma extensionless_share_group_witness :
  let readme := mkBlobItem "README" (Some 10) in
  let license := mkBlobItem "LICENSE" (Some 20) in
  let makefile := mkBlobItem "Makefile" (Some 30) in
  let st := groupLoop [readme; license; makefile] in
  getGroupKey "README" = getGroupKey "Makefile" /\
  contents (gheap st) (groupedFiles st) =
    [(""%string, [toFileInfo readme; toFileInfo license; toFileInfo makefile])] /\
  exists out,
    WriteFile earliestPath (EarliestReport out) ∈
      events (reorderAndSaveGroupedFiles sampleRuntime (groupedFiles st) (gheap st)) /\
    toFileInfo readme ∈ out.
Proof.
  intros readme license makefile st.
  assert (Hr : readme ∈ [readme; license; makefile]) by left.
  assert (Hm : makefile ∈ [readme; license; makefile]) by (right; right; left).
  destruct (extensionless_share_group sampleRuntime [readme; license; makefile]
              readme makefile Hr Hm eq_refl eq_refl eq_refl eq_refl)
    as (Hkey & r & Hget & _ & _ & Hexcess).
  split; [exact Hkey|]. split; [reflexivity|].
  injection Hget as <-.
  destruct Hexcess as (out & Hev & Hout);
    [vm_compute; lia | split; [by left | reflexivity] |].
  exists out. split; [exact Hev|]. apply Hout. vm_compute. left.
Defined.

(** ** Deletion *)

Section RemoverProperties.
Context {Service : Type} (blobDelete : string -> string -> Service -> Service * bool).

Lemma remove_foldl containerName files svc out :
  foldl (removeStep Service blobDelete containerName) (svc, out) files =
  (deleteEach Service blobDelete containerName files svc,
   out ++ removalLog Service blobDelete containerName files svc).
Proof.
  revert svc out. induction files as [|file rest IH]; intros svc out; simpl.
  - by rewrite app_nil_r.
  - destruct (blobDelete containerName file svc) as [svc' ok] eqn:E. simpl.
    rewrite IH. by rewrite <- app_assoc.
Qed.

Lemma attemptedFiles_removalLog containerName files svc :
  attemptedFiles (removalLog Service blobDelete containerName files svc) = files.
Proof.
  revert svc. induction files as [|file rest IH]; intros svc; simpl; [done|].
  destruct (blobDelete containerName file svc) as [svc' ok]. simpl.
  destruct ok; simpl; by rewrite IH.
Qed.

Lemma length_removalLog containerName files svc :
  length (removalLog Service blobDelete containerName files svc) = (2 * length files)%nat.
Proof.
  revert svc. induction files as [|file rest IH]; intros svc; simpl; [done|].
  destruct (blobDelete containerName file svc) as [svc' ok]. simpl.
  rewrite IH. lia.
Qed.
End RemoverProperties.

(** C9.  Whatever the service answers, the deletion of every name of the
    list is attempted, once and in the order given: an attempt that throws
    is followed by its error line and the loop goes on with the next name;
    the service is left as the deletions, each made once, leave it. *)
Theorem remove_attempts_every_name (Service : Type)
    (blobDelete : string -> string -> Service -> Service * bool)
    (containerName : string) (azFiles : list string) (svc : Service) :
  let res := removeAzFilesFromContainer Service blobDelete containerName azFiles svc in
  attemptedFiles res.2 = azFiles /\
  res.2 = removalLog Service blobDelete containerName azFiles svc /\
  length res.2 = (2 * length azFiles)%nat /\
  res.1 = deleteEach Service blobDelete containerName azFiles svc.
Proof.
  intros res. subst res. unfold removeAzFilesFromContainer.
  rewrite remove_foldl. simpl.
  split; [apply attemptedFiles_removalLog|]. split; [done|].
  split; [apply length_removalLog | done].
Qed.

(** One name of three is not in the container: its deletion throws, the
    other two blobs are deleted all the same. *)
Example remove_one_of_three_fails :
  removeAzFilesFromContainer (list string) sampleDelete "web"
    ["main.1.js"; "gone.js"; "main.2.js"]%string ["main.1.js"; "main.2.js"; "keep.css"]%string =
  (["keep.css"%string],
   [DeleteAttempted "main.1.js"; LogDeleted "main.1.js";
    DeleteAttempted "gone.js"; LogError "gone.js";
    DeleteAttempted "main.2.js"; LogDeleted "main.2.js"]).
Proof. vm_compute. reflexivity. Qed.

(** ** Worked examples *)

Example getGroupKey_hashed_bundle : getGroupKey "main.abc123.js" = "main"%string.
Proof. reflexivity. Qed.

Example getGroupKey_compressed_bundle : getGroupKey "main.abc123.js.gz" = "main"%string.
Proof. reflexivity. Qed.

Example getGroupKey_image : getGroupKey "photo-2.def456.jpg" = "photo-2"%string.
Proof. reflexivity. Qed.

Example findEarliest_of_three :
  findEarliestDateInGroup
    [mkFileInfo "a.1.js" (Some 5); mkFileInfo "a.2.js" (Some 2); mkFileInfo "a.3.js" (Some 8)]
  = Some 2.
Proof. reflexivity. Qed.

Example sanitize_spaces_and_slashes : sanitize "my key/2" = "my_key_2"%string.
Proof. reflexivity. Qed.

(** A listing with a nested blob: it is counted and skipped, the other
    blobs are grouped in listing order. *)
Example groupLoop_with_nested_blob :
  let st := groupLoop [mkBlobItem "app.2.js" (Some 10); mkBlobItem "img/logo.png" (Some 15);
                       mkBlobItem "site.css" None; mkBlobItem "app.1.js" (Some 20)] in
  contents (gheap st) (groupedFiles st) =
    [("app"%string, [mkFileInfo "app.2.js" (Some 10); mkFileInfo "app.1.js" (Some 20)]);
     ("site"%string, [mkFileInfo "site.css" None])] /\
  totalFilesConsidered st = 4%nat /\ nestedFileCount st = 1%nat.
Proof. repeat split. Qed.

(** The excess-only report on records with and without a date: the
    engine of the sample runtime moves the date 2 in front of the date 5
    and leaves the records without a date at both ends. *)
Example engineSort_absent_dates :
  let u1 := mkFileInfo "a.1.js" None in
  let f5 := mkFileInfo "a.2.js" (Some 5) in
  let u2 := mkFileInfo "a.3.js" None in
  let f2 := mkFileInfo "a.4.js" (Some 2) in
  engineSort sampleRuntime compareLastModified [u1; f5; u2; f2] = [u1; f2; f5; u2].
Proof. reflexivity. Qed.

(** A write that throws after the loop: the files written before it stay
    written, and the error line of the [catch] follows them. *)
Example summary_failure_keeps_exports :
  let rt := mkRuntime codeUnitCompare true true
              (fun path => negb (String.eqb path earliestPath)) binaryPlacement in
  let files := [mkFileInfo "app.1.js" (Some 10); mkFileInfo "app.2.js" (Some 20);
                mkFileInfo "app.3.js" (Some 30)] in
  events (reorderAndSaveGroupedFiles rt [("app"%string, 0%nat)] [files]) =
    [WriteFile "output/app.txt" (GroupReport "app" (Some 10) files);
     WriteFile csvPath (CsvExport files); WriteFile jsonPath (JsonExport files);
     ErrorLogged].
Proof. reflexivity. Qed.

Example csv_failure_writes_no_export :
  let rt := mkRuntime codeUnitCompare true true
              (fun path => negb (String.eqb path csvPath)) binaryPlacement in
  let files := [mkFileInfo "app.1.js" (Some 10); mkFileInfo "app.2.js" (Some 20);
                mkFileInfo "app.3.js" (Some 30)] in
  events (reorderAndSaveGroupedFiles rt [("app"%string, 0%nat)] [files]) =
    [WriteFile "output/app.txt" (GroupReport "app" (Some 10) files); ErrorLogged].
Proof. reflexivity. Qed.

(** * Further properties of the code *)

(** ** More on key derivation *)

Lemma includes_nil c : includes "" c = false.
Proof. reflexivity. Qed.

Lemma includes_app (p q : string) c :
  includes (p ++ q)%string c = includes p c || includes q c.
Proof.
  induction p as [|a p IH]; [done|].
  change (String a p ++ q)%string with (String a (p ++ q)%string).
  rewrite !includes_cons, IH. by rewrite orb_assoc.
Qed.

Lemma getGroupKey_dotless_prefix_aux filename :
  includes (getGroupKey filename) "." = false /\
  exists rest, filename = (getGroupKey filename ++ rest)%string.
Proof.
  destruct (includes filename ".") eqn:E.
  - destruct (first_dot_split _ E) as (p & r & -> & Hp).
    rewrite getGroupKey_before_first_dot by done.
    split; [done | by exists (String "." r)].
  - rewrite getGroupKey_without_dot by done.
    split; [done | by exists filename].
Qed.

(** X1.  Whatever the name, the key is a prefix of the name and holds
    no dot; when the name has a dot, the key is followed by one. *)
Theorem getGroupKey_dotless_prefix (filename : string) :
  includes (getGroupKey filename) "." = false /\
  (exists rest, filename = (getGroupKey filename ++ rest)%string) /\
  (includes filename "." = true ->
   exists rest, filename = (getGroupKey filename ++ String "." rest)%string).
Proof.
  destruct (includes filename ".") eqn:E.
  - destruct (first_dot_split _ E) as (p & r & -> & Hp).
    rewrite getGroupKey_before_first_dot by done.
    split; [done|]. split; [by exists (String "." r) | intros _; by exists r].
  - rewrite getGroupKey_without_dot by done.
    split; [done|]. split; [by exists filename | done].
Qed.

(** X2.  The names with the empty key are exactly those without a dot
    and those that begin with one. *)
Theorem getGroupKey_empty_iff (filename : string) :
  getGroupKey filename = ""%string <->
  includes filename "." = false \/ exists rest, filename = String "." rest.
Proof.
  split.
  - intros Hk. destruct (includes filename ".") eqn:E; [|by left].
    right. destruct (first_dot_split _ E) as (p & r & -> & Hp).
    rewrite getGroupKey_before_first_dot in Hk by done. subst p. by exists r.
  - intros [H|[r ->]]; [by apply getGroupKey_without_dot|].
    by apply (getGroupKey_before_first_dot "" r).
Qed.

(** X3.  No key of the Map that grouping builds holds a dot or a path
    separator. *)
Theorem group_keys_without_dot_or_separator (blobs : list BlobItem) (k : string) :
  k ∈ (groupedFiles (groupLoop blobs)).*1 ->
  includes k "." = false /\ includes k "/" = false.
Proof.
  intros Hk. apply list_elem_of_fmap in Hk as ([k' r] & -> & Hin). simpl.
  destruct (groupLoop_inv blobs) as (_ & _ & _ & _ & _ & Hg & _).
  destruct (Hg k' r Hin) as [_ Hne].
  destruct (groupOf k' blobs) as [|x xs] eqn:Eg; [done|].
  assert (Hx : x ∈ groupOf k' blobs) by (rewrite Eg; left).
  apply groupOf_elem_of in Hx as (b & _ & _ & Hn & <-).
  destruct (getGroupKey_dotless_prefix_aux (blob_name b)) as (Hdot & rest & Hrest).
  split; [done|]. unfold isNested in Hn. rewrite Hrest, includes_app in Hn.
  by apply orb_false_iff in Hn as [? _].
Qed.

Lemma group_keys_without_dot_or_separator_witness :
  let blobs := [mkBlobItem "my app.1.js" (Some 10); mkBlobItem "img/logo.v2.png" (Some 20);
                mkBlobItem ".htaccess" None] in
  (groupedFiles (groupLoop blobs)).*1 = ["my app"; ""]%string /\
  includes "my app" "." = false /\ includes "my app" "/" = false.
Proof.
  intros blobs. split; [reflexivity|].
  apply (group_keys_without_dot_or_separator blobs).
  apply (bool_decide_unpack _). vm_compute. exact I.
Defined.

(** ** The names of the report files *)

Lemma safeChar_underscore : safeChar "_" = false.
Proof. reflexivity. Qed.

Lemma sanitize_length s : String.length (sanitize s) = String.length s.
Proof. induction s as [|c s IH]; simpl; [done | by rewrite IH]. Qed.

Lemma sanitize_safe s : allChars safeChar s = true -> sanitize s = s.
Proof.
  induction s as [|c s IH]; simpl; [done|].
  intros H. apply andb_true_iff in H as [Hc Hs]. by rewrite Hc, IH.
Qed.

Lemma sanitize_chars s :
  allChars (fun c => safeChar c || Ascii.eqb c "_") (sanitize s) = true.
Proof.
  induction s as [|c s IH]; simpl; [done|].
  rewrite IH, andb_true_r. destruct (safeChar c) eqn:E; [by rewrite E | done].
Qed.

Lemma allChars_includes p s c : allChars p s = true -> p c = false -> includes s c = false.
Proof.
  induction s as [|a s IH]; simpl; [done|].
  intros H Hc. apply andb_true_iff in H as [Ha Hs].
  rewrite includes_cons, (IH Hs Hc), orb_false_r.
  apply Ascii.eqb_neq. intros ->. congruence.
Qed.

(** X4.  Sanitizing a key keeps its length, leaves only letters, digits,
    '-', '.' and '_', hence no path separator; a key made of letters,
    digits, '-' and '.' is left as it is, and sanitizing twice is
    sanitizing once. *)
Theorem sanitize_properties (groupKey : string) :
  String.length (sanitize groupKey) = String.length groupKey /\
  allChars (fun c => safeChar c || Ascii.eqb c "_") (sanitize groupKey) = true /\
  includes (sanitize groupKey) "/" = false /\
  (allChars safeChar groupKey = true -> sanitize groupKey = groupKey) /\
  sanitize (sanitize groupKey) = sanitize groupKey.
Proof.
  split; [apply sanitize_length|]. split; [apply sanitize_chars|].
  split; [|split; [apply sanitize_safe|]].
  - apply (allChars_includes _ _ _ (sanitize_chars groupKey)). reflexivity.
  - induction groupKey as [|c s IH]; simpl; [done|].
    rewrite IH. destruct (safeChar c) eqn:E; [by rewrite E | done].
Qed.

Lemma string_app_inj_r (a b c : string) : (a ++ c = b ++ c)%string -> a = b.
Proof.
  revert b. induction a as [|x a IH]; intros b H.
  - destruct b as [|y b]; [done|].
    apply (f_equal String.length) in H. rewrite !length_append in H. simpl in H. lia.
  - destruct b as [|y b].
    + apply (f_equal String.length) in H. rewrite !length_append in H. simpl in H. lia.
    + simpl in H. injection H as -> H. f_equal. by apply IH.
Qed.

Lemma groupReportPath_inj_sanitized k1 k2 :
  groupReportPath k1 = groupReportPath k2 -> sanitize k1 = sanitize k2.
Proof.
  unfold groupReportPath. intros H. simpl in H.
  injection H as H. change (sanitize k1 ++ ".txt" = sanitize k2 ++ ".txt")%string in H.
  by apply string_app_inj_r in H.
Qed.

(** X5.  Two groups are written to the same report file exactly when
    their keys are sanitized to the same string; keys made of letters,
    digits, '-' and '.' only never share a file. *)
Theorem groupReportPath_collision (k1 k2 : string) :
  (groupReportPath k1 = groupReportPath k2 <-> sanitize k1 = sanitize k2) /\
  (allChars safeChar k1 = true -> allChars safeChar k2 = true ->
   groupReportPath k1 = groupReportPath k2 -> k1 = k2).
Proof.
  split.
  - split; [apply groupReportPath_inj_sanitized|].
    unfold groupReportPath. by intros ->.
  - intros H1 H2 H. apply groupReportPath_inj_sanitized in H.
    by rewrite !sanitize_safe in H.
Qed.

(** ** More on the earliest date *)

Lemma findEarliest_None files :
  findEarliestDateInGroup files = None <-> Forall (fun f => lastModified f = None) files.
Proof. unfold findEarliestDateInGroup. rewrite earliest_foldl_None. tauto. Qed.

Lemma findEarliest_Some files t :
  findEarliestDateInGroup files = Some t ->
  (exists f, f ∈ files /\ lastModified f = Some t) /\
  (forall f t', f ∈ files -> lastModified f = Some t' -> t <= t').
Proof.
  intros Ht. apply earliest_foldl_Some in Ht as ([?|?] & _ & ?); done.
Qed.

Lemma findEarliest_perm l1 l2 :
  l1 ≡ₚ l2 -> findEarliestDateInGroup l1 = findEarliestDateInGroup l2.
Proof.
  intros Hp.
  destruct (findEarliestDateInGroup l1) as [t1|] eqn:E1,
           (findEarliestDateInGroup l2) as [t2|] eqn:E2; [| | |done].
  - apply findEarliest_Some in E1 as ((f1 & Hf1 & Ht1) & Hmin1).
    apply findEarliest_Some in E2 as ((f2 & Hf2 & Ht2) & Hmin2).
    rewrite Hp in Hf1. rewrite <- Hp in Hf2.
    specialize (Hmin1 _ _ Hf2 Ht2). specialize (Hmin2 _ _ Hf1 Ht1).
    f_equal. lia.
  - apply findEarliest_Some in E1 as ((f1 & Hf1 & Ht1) & _).
    apply findEarliest_None in E2. rewrite Hp in Hf1.
    rewrite Forall_forall in E2. specialize (E2 _ Hf1). congruence.
  - apply findEarliest_Some in E2 as ((f2 & Hf2 & Ht2) & _).
    apply findEarliest_None in E1. rewrite <- Hp in Hf2.
    rewrite Forall_forall in E1. specialize (E1 _ Hf2). congruence.
Qed.

(** X6.  The earliest date of a group does not depend on the order of
    its records: it is the same before and after the display sort,
    whatever the collation. *)
Theorem earliest_independent_of_order (rt : Runtime) (l1 l2 : list FileInfo) :
  l1 ≡ₚ l2 ->
  findEarliestDateInGroup l1 = findEarliestDateInGroup l2 /\
  findEarliestDateInGroup (sort (compareNames rt) l1) = findEarliestDateInGroup l1.
Proof.
  intros Hp. split; [by apply findEarliest_perm|].
  apply findEarliest_perm, sort_perm.
Qed.

Lemma earliest_independent_of_order_witness :
  let a := mkFileInfo "a.1.js" (Some 30) in
  let b := mkFileInfo "a.2.js" None in
  let c := mkFileInfo "a.3.js" (Some 10) in
  findEarliestDateInGroup [a; b; c] = Some 10 /\
  findEarliestDateInGroup [c; a; b] = Some 10.
Proof.
  intros a b c.
  assert (Hp : [a; b; c] ≡ₚ [c; a; b]).
  { change [c; a; b] with ([c] ++ [a; b]). change [a; b; c] with ([a; b] ++ [c]).
    apply Permutation_app_comm. }
  destruct (earliest_independent_of_order sampleRuntime _ _ Hp) as [<- _].
  split; reflexivity.
Defined.

(** ** More on grouping *)

Lemma length_concat_nonempty {A : Type} (ls : list (list A)) :
  Forall (fun l => l <> []) ls -> (length ls <= length (concat ls))%nat.
Proof.
  induction 1 as [|l ls Hl _ IH]; simpl; [done|].
  rewrite length_app. destruct l; [done|]. simpl. lia.
Qed.

(** X7.  The Map that grouping builds is well formed: its keys are
    distinct, its groups are distinct arrays of the heap, no group is
    empty, every record is filed under the key of its own name, and there
    are no more groups than root-level blobs. *)
Theorem grouped_index_well_formed (blobs : list BlobItem) :
  let st := groupLoop blobs in
  NoDup (groupedFiles st).*1 /\
  NoDup (groupedFiles st).*2 /\
  Forall (fun r => (r < length (gheap st))%nat) (groupedFiles st).*2 /\
  (forall k files, (k, files) ∈ groupsOf st -> files <> []) /\
  groupKeyed (gheap st) (groupedFiles st) /\
  (length (groupedFiles st) <= length (filter isRoot blobs))%nat.
Proof.
  intros st.
  destruct (groupLoop_inv blobs) as (_ & _ & Hk & Hr & Hb & Hg & _ & Hperm).
  fold st in Hk, Hr, Hb, Hg, Hperm.
  assert (Hne : forall k files, (k, files) ∈ groupsOf st -> files <> []).
  { intros k files Hin. apply contents_elem_of in Hin as (r & Hin & ->).
    destruct (Hg k r Hin) as [-> ?]. done. }
  split; [done|]. split; [done|]. split; [done|]. split; [done|].
  split; [apply groupLoop_groupKeyed|].
  rewrite <- (length_fmap toFileInfo), <- Hperm.
  etransitivity; [|apply length_concat_nonempty].
  - unfold contents. by rewrite !length_fmap.
  - apply Forall_forall. intros files Hin.
    apply list_elem_of_fmap in Hin as ([k f] & -> & Hin). by apply (Hne k).
Qed.

Lemma groupStep_root_congr st st' blob :
  groupedFiles st = groupedFiles st' -> gheap st = gheap st' ->
  groupedFiles (groupStep st blob) = groupedFiles (groupStep st' blob) /\
  gheap (groupStep st blob) = gheap (groupStep st' blob).
Proof.
  intros Hm Hh. unfold groupStep. rewrite Hm, Hh.
  destruct (includes (blob_name blob) "/"); [done|].
  destruct (mapHas (groupedFiles st') (getGroupKey (blob_name blob))); simpl;
    by destruct (mapGet _ _).
Qed.

Lemma groupLoop_skips_nested blobs st st' :
  groupedFiles st = groupedFiles st' -> gheap st = gheap st' ->
  groupedFiles (foldl groupStep st blobs) =
    groupedFiles (foldl groupStep st' (filter isRoot blobs)) /\
  gheap (foldl groupStep st blobs) = gheap (foldl groupStep st' (filter isRoot blobs)).
Proof.
  revert st st'. induction blobs as [|b blobs IH]; intros st st' Hm Hh; [done|].
  rewrite filter_cons_bool, isRoot_not_nested. simpl foldl.
  destruct (isNested b) eqn:En; simpl.
  - apply IH; rewrite groupStep_nested by done; done.
  - destruct (groupStep_root_congr st st' b Hm Hh). by apply IH.
Qed.

Lemma filter_nested_of_root blobs : filter isNested (filter isRoot blobs) = [].
Proof.
  induction blobs as [|b blobs IH]; [done|].
  rewrite (filter_cons_bool isRoot), isRoot_not_nested.
  destruct (isNested b) eqn:En; simpl; [done|].
  by rewrite filter_cons_bool, En.
Qed.

(** X8.  Nested blobs leave no trace in the groups: grouping a listing
    and grouping its root-level blobs alone build the same Map and the
    same arrays; only the two counters tell them apart. *)
Theorem grouping_ignores_nested (blobs : list BlobItem) :
  groupedFiles (groupLoop blobs) = groupedFiles (groupLoop (filter isRoot blobs)) /\
  gheap (groupLoop blobs) = gheap (groupLoop (filter isRoot blobs)) /\
  nestedFileCount (groupLoop (filter isRoot blobs)) = 0%nat /\
  (totalFilesConsidered (groupLoop blobs) =
   nestedFileCount (groupLoop blobs) + totalFilesConsidered (groupLoop (filter isRoot blobs)))%nat.
Proof.
  destruct (groupLoop_skips_nested blobs (mkGroupState [] [] 0%nat 0%nat)
              (mkGroupState [] [] 0%nat 0%nat) eq_refl eq_refl) as [Hm Hh].
  split; [exact Hm|]. split; [exact Hh|].
  destruct (groupLoop_inv blobs) as (Ht & Hn & _).
  destruct (groupLoop_inv (filter isRoot blobs)) as (Ht' & Hn' & _).
  split; [by rewrite Hn', filter_nested_of_root|].
  rewrite Ht, Hn, Ht'. symmetry. apply length_filter_root_nested.
Qed.

(** ** Configuration *)

(** X9.  A run saves something only with a non-empty connection
    string, a non-empty container name, an existing container and a
    listing that does not throw; it then saves the groups of that listing.
    In every other case nothing is grouped or written. *)
Theorem main_runs_iff_configured (rt : Runtime) (env : Environment) :
  (main rt env = None <->
   connectionString env = None \/ connectionString env = Some ""%string \/
   containerName env = None \/ containerName env = Some ""%string \/
   containerExists env = false \/ listBlobsFlat env = None) /\
  (forall res, main rt env = Some res ->
     exists blobs,
       listBlobsFlat env = Some blobs /\
       res = reorderAndSaveGroupedFiles rt (groupedFiles (groupLoop blobs))
               (gheap (groupLoop blobs))).
Proof.
  unfold main, listAndGroupContainerFiles, truthy.
  destruct (connectionString env) as [cs|]; simpl;
    [destruct (String.eqb cs "") eqn:Ecs; simpl|].
  - apply String.eqb_eq in Ecs as ->. split; [|done]. split; auto.
  - apply String.eqb_neq in Ecs.
    destruct (containerName env) as [cn|]; simpl;
      [destruct (String.eqb cn "") eqn:Ecn; simpl|].
    + apply String.eqb_eq in Ecn as ->. split; [|done]. split; auto.
    + apply String.eqb_neq in Ecn.
      destruct (containerExists env); simpl.
      * destruct (listBlobsFlat env) as [blobs|].
        -- split.
           ++ split; [done|]. intros [?|[[= ?]|[?|[[= ?]|[?|?]]]]]; done.
           ++ intros res [= <-]. by exists blobs.
        -- split; [|done]. split; auto 10.
      * split; [|done]. split; auto 10.
    + split; [|done]. split; auto.
  - split; [|done]. split; auto.
Qed.

Lemma resolveContainerName_cases containerName :
  (containerName = "web"%string /\ resolveContainerName containerName = "$web"%string) \/
  (containerName = "log"%string /\ resolveContainerName containerName = "$log"%string) \/
  (containerName <> "web"%string /\ containerName <> "log"%string /\
   resolveContainerName containerName = containerName).
Proof.
  unfold resolveContainerName.
  destruct (String.eqb containerName "web") eqn:Ew.
  - apply String.eqb_eq in Ew as ->. by left.
  - rewrite Ew. simpl. destruct (String.eqb containerName "log") eqn:El.
    + apply String.eqb_eq in El as ->. right. by left.
    + apply String.eqb_neq in Ew, El. right. by right.
Qed.

(** X10.  The container asked of the service is the configured name,
    except that web and log get one leading dollar sign: the result is
    never web or log, and a name that is already resolved is not changed
    again. *)
Theorem resolveContainerName_properties (containerName : string) :
  (resolveContainerName containerName = containerName \/
   resolveContainerName containerName = ("$" ++ containerName)%string) /\
  resolveContainerName containerName <> "web"%string /\
  resolveContainerName containerName <> "log"%string /\
  resolveContainerName (resolveContainerName containerName) =
    resolveContainerName containerName /\
  (resolveContainerName containerName <> containerName <->
   containerName = "web"%string \/ containerName = "log"%string).
Proof.
  destruct (resolveContainerName_cases containerName)
    as [[-> Hr]|[[-> Hr]|(Hw & Hl & Hr)]].
  - rewrite Hr. split; [by right|]. split; [done|]. split; [done|].
    split; [reflexivity|]. split; [by left | done].
  - rewrite Hr. split; [by right|]. split; [done|]. split; [done|].
    split; [reflexivity|]. split; [by right | done].
  - rewrite !Hr. split; [by left|]. split; [done|]. split; [done|].
    split; [done|]. split; [done | by intros [?|?]].
Qed.

(** ** More on the saving phase: whatever throws *)

Lemma reorderAndSave_heap_perm rt (m : JsMap) h :
  Forall2 (≡ₚ) h (finalHeap (reorderAndSaveGroupedFiles rt m h)).
Proof.
  unfold reorderAndSaveGroupedFiles.
  destruct (if outputDirExists rt then Some []
            else if mkdirOk rt then Some [Mkdir "./output"%string] else None) as [t0|];
    [|simpl; reflexivity].
  pose proof (saveGroups_sound rt h (sortedGroupEntries h m)
                (mkSaveState h [] [] 0%nat t0)) as Hsound.
  destruct (saveGroups rt (sortedGroupEntries h m) (mkSaveState h [] [] 0%nat t0))
    as [s completed].
  destruct Hsound as (Hperm & _); [simpl; reflexivity|]. simpl in Hperm.
  destruct completed; [destruct (saveAggregates rt s)|]; done.
Qed.

(** X11.  Whatever throws, the saving phase only rearranges: the heap
    keeps its arrays, each with the same records as before, so every
    group of the Map keeps its key, its size and its records. *)
Theorem save_phase_only_rearranges (rt : Runtime) (m : JsMap) (h : Heap) :
  let h' := finalHeap (reorderAndSaveGroupedFiles rt m h) in
  length h' = length h /\
  Forall2 (≡ₚ) h h' /\
  Forall2 (fun before after => before.1 = after.1 /\ before.2 ≡ₚ after.2)
    (contents h m) (contents h' m).
Proof.
  intros h'. pose proof (reorderAndSave_heap_perm rt m h) as Hperm. fold h' in Hperm.
  split; [symmetry; by apply (Forall2_length _ _ _ Hperm)|]. split; [done|].
  unfold contents. apply Forall2_fmap, Forall_Forall2_diag, Forall_forall.
  intros e _. simpl. split; [done | by apply deref_perm].
Qed.

Lemma saveGroups_excess_in_alldata rt entries s :
  (forall x, x ∈ earliestTotals s -> x ∈ alldata s) ->
  forall x, x ∈ earliestTotals (saveGroups rt entries s).1 ->
            x ∈ alldata (saveGroups rt entries s).1.
Proof.
  revert s. induction entries as [|[k r] rest IH]; intros s Hs; simpl; [done|].
  destruct (length (deref (sheap s) r) <? 3)%nat; [by apply IH|].
  assert (Hstep : forall x,
    x ∈ (if (0 <? length (slice (deref (sheap s) r) 0 (-2)))%nat
         then earliestTotals s ++ slice (deref (sheap s) r) 0 (-2)
         else earliestTotals s) ->
    x ∈ alldata s ++ sort (compareNames rt) (deref (sheap s) r)).
  { intros x Hx. apply elem_of_app.
    destruct (0 <? _)%nat; [|left; auto].
    apply elem_of_app in Hx as [?|Hx]; [left; auto|]. right.
    rewrite slice_all_but_last_two in Hx. apply elem_of_take_list in Hx.
    by apply sort_elem_of. }
  unfold bunWrite. destruct (writeOk rt (groupReportPath k)); simpl; [|done].
  by apply IH.
Qed.

(** X12.  Whatever throws, what the loop hands to the writers is sound:
    every record it has put in [alldata] or [earliestTotals] belongs to a
    group of at least three records, and every record marked as excess is
    also a row of the exports. *)
Theorem loop_accumulates_qualifying_records (rt : Runtime) (m : JsMap) (h : Heap)
    (t0 : list Event) :
  let s := (saveGroups rt (sortedGroupEntries h m) (mkSaveState h [] [] 0%nat t0)).1 in
  (forall x, x ∈ alldata s -> fromQualifying h m x) /\
  (forall x, x ∈ earliestTotals s -> fromQualifying h m x) /\
  (forall x, x ∈ earliestTotals s -> x ∈ alldata s).
Proof.
  intros s.
  destruct (saveGroups_sound rt h (sortedGroupEntries h m)
              (mkSaveState h [] [] 0%nat t0)) as (_ & Het & Had & _);
    [simpl; reflexivity|].
  fold s in Het, Had. simpl in Het, Had.
  split; [|split].
  - intros x Hx. destruct (Had x Hx) as [Hnil|?]; [by apply elem_of_nil in Hnil|].
    by apply fromQualifying_sorted.
  - intros x Hx. destruct (Het x Hx) as [Hnil|?]; [by apply elem_of_nil in Hnil|].
    by apply fromQualifying_sorted.
  - apply saveGroups_excess_in_alldata. simpl. intros x Hx. by apply elem_of_nil in Hx.
Qed.





(** ** More on the saving phase: when nothing throws *)

Lemma qualifyingGroups_filter h (entries : list (string * nat)) :
  qualifyingGroups h entries =
  (fun e => (e.1, deref h e.2)) <$> filter (qualifies h) entries.
Proof.
  induction entries as [|[k r] rest IH]; [done|].
  rewrite qualifyingGroups_cons, filter_cons_bool. unfold qualifies at 1. simpl.
  destruct (length (deref h r) <? 3)%nat; simpl; by rewrite IH.
Qed.

Lemma concat_sorted_perm rt (Q : list (string * list FileInfo)) :
  concat (map (fun g => sort (compareNames rt) g.2) Q) ≡ₚ concat Q.*2.
Proof.
  induction Q as [|g Q IH]; simpl; [done|]. by rewrite sort_perm, IH.
Qed.

Lemma concat_excess_length (Q : list (string * list FileInfo)) :
  Forall (fun g => (3 <= length g.2)%nat) Q ->
  (length (concat Q.*2) =
   length (concat (map (fun g : string * list FileInfo => slice g.2 0 (-2)) Q))
   + 2 * length Q)%nat.
Proof.
  induction 1 as [|g Q Hg _ IH]; [done|].
  change (concat (g :: Q).*2) with (g.2 ++ concat Q.*2).
  change (concat (map (fun g : string * list FileInfo => slice g.2 0 (-2)) (g :: Q)))
    with (slice g.2 0 (-2) ++
          concat (map (fun g : string * list FileInfo => slice g.2 0 (-2)) Q)).
  rewrite !length_app, IH, slice_all_but_last_two, length_take. simpl length. lia.
Qed.

Lemma concat_excess_in_sorted rt (Q : list (string * list FileInfo)) x :
  x ∈ concat (map (fun g : string * list FileInfo => slice g.2 0 (-2)) Q) ->
  x ∈ concat (map (fun g => sort (compareNames rt) g.2) Q).
Proof.
  induction Q as [|g Q IH]; simpl; [done|].
  rewrite !elem_of_app. intros [Hx|Hx]; [left | right; auto].
  rewrite slice_all_but_last_two in Hx. apply elem_of_take_list in Hx.
  by apply sort_elem_of.
Qed.

Lemma qualifyingGroups_nonempty h (m : JsMap) e :
  e ∈ m -> qualifies h e = true ->
  (e.1, deref h e.2) ∈ qualifyingGroups h (sortedGroupEntries h m).
Proof.
  intros He Hq. apply qualifyingGroups_elem_of. exists e.
  split; [by apply sortedGroupEntries_elem_of | done].
Qed.

(** X14.  When nothing throws and some group holds three records or
    more, alldata.csv and alldata.json get the same rows: the records of
    every such group, each exactly once, group after group in the group
    order and sorted by name inside a group.  The summary lists the excess
    records, which are all among the rows, and the rows that are not
    excess are two per group. *)
Theorem exports_hold_every_qualifying_record (rt : Runtime) (m : JsMap) (h : Heap) :
  ioSucceeds rt -> NoDup m.*2 ->
  (exists e, e ∈ m /\ qualifies h e = true) ->
  let evs := events (reorderAndSaveGroupedFiles rt m h) in
  let Q := qualifyingGroups h (sortedGroupEntries h m) in
  exists all out,
    WriteFile csvPath (CsvExport all) ∈ evs /\
    WriteFile jsonPath (JsonExport all) ∈ evs /\
    WriteFile earliestPath (EarliestReport out) ∈ evs /\
    all = concat (map (fun g => sort (compareNames rt) g.2) Q) /\
    all ≡ₚ concat Q.*2 /\
    length all = (length out + 2 * length Q)%nat /\
    (forall x, x ∈ out -> x ∈ all).
Proof.
  intros Hio Hnd (e & He & Hq) evs Q.
  destruct (reorderAndSave_complete rt m h Hio Hnd) as [Hev _].
  fold evs Q in Hev.
  pose proof (qualifyingGroups_nonempty h m e He Hq) as HQ. fold Q in HQ.
  assert (Hsize : Forall (fun g => (3 <= length g.2)%nat) Q).
  { apply Forall_forall. intros g Hg.
    by apply (qualifyingGroups_size h (sortedGroupEntries h m)). }
  destruct Q as [|g Q'] eqn:EQ; [by apply elem_of_nil in HQ|]. rewrite <- EQ in *.
  exists (concat (map (fun g => sort (compareNames rt) g.2) Q)),
         (engineSort rt compareLastModified
            (concat (map (fun g : string * list FileInfo => slice g.2 0 (-2)) Q))).
  rewrite Hev, !elem_of_app.
  split; [right; right; rewrite EQ; left|].
  split; [right; right; rewrite EQ; right; left|].
  split; [right; right; rewrite EQ; right; right; left|].
  split; [done|]. split; [apply concat_sorted_perm|].
  split.
  - rewrite engineSort_length, (concat_sorted_perm rt Q). by apply concat_excess_length.
  - intros x Hx. apply engineSort_elem_of in Hx. by apply concat_excess_in_sorted.
Qed.

Lemma exports_hold_every_qualifying_record_witness :
  let a := [mkFileInfo "app.2.js" (Some 10); mkFileInfo "app.1.js" (Some 20);
            mkFileInfo "app.3.js" (Some 30); mkFileInfo "app.4.js" (Some 40)] in
  let z := [mkFileInfo "z.1.css" (Some 5)] in
  let evs := events (reorderAndSaveGroupedFiles sampleRuntime
                       [("app"%string, 0%nat); ("z"%string, 1%nat)] [a; z]) in
  exists all out,
    WriteFile csvPath (CsvExport all) ∈ evs /\
    WriteFile jsonPath (JsonExport all) ∈ evs /\
    WriteFile earliestPath (EarliestReport out) ∈ evs /\
    length all = 4%nat /\ length out = 2%nat.
Proof.
  intros a z evs.
  assert (Hio : ioSucceeds sampleRuntime) by (split; [by left | reflexivity]).
  assert (Hnd : NoDup [("app"%string, 0%nat); ("z"%string, 1%nat)].*2)
    by (apply (bool_decide_unpack _); vm_compute; exact I).
  destruct (exports_hold_every_qualifying_record sampleRuntime
              [("app"%string, 0%nat); ("z"%string, 1%nat)] [a; z] Hio Hnd)
    as (all & out & Hcsv & Hjson & Hsum & Hall & _ & Hlen & _).
  { exists ("app"%string, 0%nat). split; [left | reflexivity]. }
  exists all, out. split; [exact Hcsv|]. split; [exact Hjson|]. split; [exact Hsum|].
  assert (Hall4 : length all = 4%nat) by (rewrite Hall; reflexivity).
  split; [exact Hall4|].
  change (length all = (length out + 2 * 1)%nat) in Hlen. lia.
Defined.

Lemma reportedKeys_app evs1 evs2 :
  reportedKeys (evs1 ++ evs2) = reportedKeys evs1 ++ reportedKeys evs2.
Proof. apply flat_map_app. Qed.

Lemma reportedKeys_reports rt (Q : list (string * list FileInfo)) :
  reportedKeys (map (groupReportEvent rt) Q) = Q.*1.
Proof. induction Q as [|g Q IH]; simpl; [done | by rewrite IH]. Qed.

(** X15.  When nothing throws, one report is written per group of at
    least three records and none for the others, in the order of the
    sorted groups; each is written to the file named after its sanitized
    key and holds the group's earliest date and its records sorted by
    name. *)
Theorem one_report_per_qualifying_group (rt : Runtime) (m : JsMap) (h : Heap) :
  ioSucceeds rt -> NoDup m.*2 ->
  let evs := events (reorderAndSaveGroupedFiles rt m h) in
  reportedKeys evs = (filter (qualifies h) (sortedGroupEntries h m)).*1 /\
  (forall path k earliest fs,
     WriteFile path (GroupReport k earliest fs) ∈ evs ->
     path = groupReportPath k /\
     exists r, (k, r) ∈ m /\ qualifies h (k, r) = true /\
               earliest = findEarliestDateInGroup (deref h r) /\
               fs = sort (compareNames rt) (deref h r)).
Proof.
  intros Hio Hnd evs.
  destruct (reorderAndSave_complete rt m h Hio Hnd) as [Hev _]. fold evs in Hev.
  split.
  - rewrite Hev, !reportedKeys_app, reportedKeys_reports.
    assert (reportedKeys (directoryEvents rt) = []) as ->
      by (unfold directoryEvents; by destruct (outputDirExists rt)).
    rewrite qualifyingGroups_filter, <- list_fmap_compose. simpl.
    destruct ((fun e : string * nat => (e.1, deref h e.2)) <$>
              filter (qualifies h) (sortedGroupEntries h m)); simpl;
      by rewrite app_nil_r.
  - intros path k earliest fs Hin. rewrite Hev in Hin.
    apply elem_of_app in Hin as [Hin|Hin].
    { unfold directoryEvents in Hin. destruct (outputDirExists rt);
        [by apply elem_of_nil in Hin | by apply list_elem_of_singleton in Hin]. }
    apply elem_of_app in Hin as [Hin|Hin].
    + apply list_elem_of_In, in_map_iff in Hin as (g & Hg & Hin).
      apply list_elem_of_In, qualifyingGroups_elem_of in Hin as (e & He & Hq & ->).
      unfold groupReportEvent in Hg. simpl in Hg. injection Hg as <- <- <- <-.
      split; [done|]. exists e.2. destruct e as [k r]. simpl.
      split; [by apply (sortedGroupEntries_elem_of h m)|]. done.
    + destruct (qualifyingGroups h (sortedGroupEntries h m));
        [by apply elem_of_nil in Hin|].
      elem_cases Hin; discriminate.
Qed.

Lemma one_report_per_qualifying_group_witness :
  let a := [mkFileInfo "app.2.js" (Some 30); mkFileInfo "app.1.js" (Some 20);
            mkFileInfo "app.3.js" (Some 40)] in
  let z := [mkFileInfo "z.1.css" (Some 5)] in
  let v := [mkFileInfo "vendor.1.js" (Some 10); mkFileInfo "vendor.2.js" (Some 11);
            mkFileInfo "vendor.3.js" (Some 12)] in
  reportedKeys (events (reorderAndSaveGroupedFiles sampleRuntime
                  [("app"%string, 0%nat); ("z"%string, 1%nat); ("vendor"%string, 2%nat)]
                  [a; z; v]))
  = ["vendor"; "app"]%string.
Proof.
  intros a z v.
  assert (Hio : ioSucceeds sampleRuntime) by (split; [by left | reflexivity]).
  assert (Hnd : NoDup [("app"%string, 0%nat); ("z"%string, 1%nat);
                       ("vendor"%string, 2%nat)].*2)
    by (apply (bool_decide_unpack _); vm_compute; exact I).
  destruct (one_report_per_qualifying_group sampleRuntime _ [a; z; v] Hio Hnd) as [-> _].
  reflexivity.
Defined.

Lemma NoDup_groupOf k blobs :
  NoDup (blob_name <$> blobs) -> NoDup (groupOf k blobs).
Proof.
  intros Hnd. apply (NoDup_fmap_1 name). unfold groupOf.
  rewrite <- list_fmap_compose.
  apply (sublist_NoDup _ (blob_name <$> blobs)); [done|].
  apply fmap_sublist, sublist_filter.
Qed.

Lemma earliest_report_content rt (m : JsMap) h out :
  ioSucceeds rt -> NoDup m.*2 ->
  WriteFile earliestPath (EarliestReport out) ∈ events (reorderAndSaveGroupedFiles rt m h) ->
  out = engineSort rt compareLastModified
          (concat (map (fun g : string * list FileInfo => slice g.2 0 (-2))
                       (qualifyingGroups h (sortedGroupEntries h m)))).
Proof.
  intros Hio Hnd Hin.
  destruct (reorderAndSave_complete rt m h Hio Hnd) as [Hev _].
  rewrite Hev in Hin. apply elem_of_app in Hin as [Hin|Hin].
  { unfold directoryEvents in Hin. destruct (outputDirExists rt);
      [by apply elem_of_nil in Hin | by apply list_elem_of_singleton in Hin]. }
  apply elem_of_app in Hin as [Hin|Hin].
  - apply list_elem_of_In, in_map_iff in Hin as (g & Hg & _). discriminate.
  - destruct (qualifyingGroups h (sortedGroupEntries h m));
      [by apply elem_of_nil in Hin|].
    elem_cases Hin; try discriminate. by injection Hin.
Qed.

(** X16.  When blob names are distinct and nothing throws, the last
    two records of a group in listing order are never marked as excess:
    none of them is a line of earliest_totals.txt.  For a group of one or
    two records these are all its records. *)
Theorem last_two_never_excess (rt : Runtime) (blobs : list BlobItem)
    (k : string) (files out : list FileInfo) :
  NoDup (blob_name <$> blobs) ->
  ioSucceeds rt ->
  (k, files) ∈ groupsOf (groupLoop blobs) ->
  WriteFile earliestPath (EarliestReport out) ∈
    events (reorderAndSaveGroupedFiles rt (groupedFiles (groupLoop blobs))
              (gheap (groupLoop blobs))) ->
  forall x, x ∈ drop (length files - 2) files -> x ∉ out.
Proof.
  intros Hnames Hio Hgroup Hev x Hkept Hout.
  destruct (groupLoop_inv blobs) as (_ & _ & Hk & Hr & _ & Hg & _).
  pose proof (groupLoop_groupKeyed blobs) as Hkeyed.
  set (st := groupLoop blobs) in *.
  apply contents_elem_of in Hgroup as (r & Hin & ->).
  rewrite (earliest_report_content rt _ _ out Hio Hr Hev) in Hout.
  apply engineSort_elem_of, list_elem_of_In, in_concat in Hout as (l & Hl & Hx).
  apply in_map_iff in Hl as (g & <- & Hgq).
  apply list_elem_of_In, qualifyingGroups_elem_of in Hgq as (e & He & _ & ->).
  apply (sortedGroupEntries_elem_of (gheap st) (groupedFiles st)) in He.
  apply list_elem_of_In in Hx. simpl in Hx.
  rewrite slice_all_but_last_two in Hx.
  assert (Hxe : x ∈ deref (gheap st) e.2) by (by apply elem_of_take_list in Hx).
  assert (Hxf : x ∈ deref (gheap st) r) by (by apply (subseteq_drop _ _ x) in Hkept).
  assert (e = (k, r)) as ->.
  { apply (NoDup_fmap_elem_inj fst (groupedFiles st)); [done..|].
    destruct e as [k' r']. simpl in *.
    rewrite <- (Hkeyed k' r' x He Hxe). by apply (Hkeyed k r x). }
  simpl in Hx.
  assert (Hnd : NoDup (deref (gheap st) r)).
  { destruct (Hg k r Hin) as [-> _]. by apply NoDup_groupOf. }
  rewrite <- (take_drop (length (deref (gheap st) r) - 2) (deref (gheap st) r)) in Hnd.
  apply NoDup_app in Hnd as (_ & Hdisj & _). by apply (Hdisj x).
Qed.

Lemma last_two_never_excess_witness :
  let blobs := [mkBlobItem "app.1.js" (Some 10); mkBlobItem "app.2.js" (Some 20);
                mkBlobItem "app.3.js" (Some 30); mkBlobItem "app.4.js" (Some 40)] in
  let st := groupLoop blobs in
  let out := [mkFileInfo "app.1.js" (Some 10); mkFileInfo "app.2.js" (Some 20)] in
  WriteFile earliestPath (EarliestReport out) ∈
    events (reorderAndSaveGroupedFiles sampleRuntime (groupedFiles st) (gheap st)) /\
  (mkFileInfo "app.3.js" (Some 30) ∉ out) /\ (mkFileInfo "app.4.js" (Some 40) ∉ out).
Proof.
  intros blobs st out.
  assert (Hev : WriteFile earliestPath (EarliestReport out) ∈
    events (reorderAndSaveGroupedFiles sampleRuntime (groupedFiles st) (gheap st))).
  { vm_compute. do 3 right. left. }
  assert (Hnames : NoDup (blob_name <$> blobs))
    by (apply (bool_decide_unpack _); vm_compute; exact I).
  assert (Hio : ioSucceeds sampleRuntime) by (split; [by left | reflexivity]).
  assert (Hgroup : ("app"%string, toFileInfo <$> blobs) ∈ groupsOf st) by (vm_compute; left).
  pose proof (last_two_never_excess sampleRuntime blobs "app" (toFileInfo <$> blobs) out
                Hnames Hio Hgroup Hev) as Hkept.
  split; [exact Hev|]. split; apply Hkept; vm_compute; [left | right; left].
Defined.

Lemma lastWrite_snoc path evs c :
  lastWrite path (evs ++ [WriteFile path c]) = Some c.
Proof.
  unfold lastWrite. rewrite foldl_snoc. simpl. by rewrite String.eqb_refl.
Qed.

(** X17.  The summary shares its file with the report of a group whose
    key is sanitized to earliest_totals.  When nothing throws and such a
    group holds three records or more, its report is written to
    output/earliest_totals.txt and then overwritten: the last write to
    that file is the summary. *)
Theorem summary_overwrites_colliding_report (rt : Runtime) (m : JsMap) (h : Heap)
    (k : string) (r : Ref) :
  ioSucceeds rt -> NoDup m.*2 ->
  (k, r) ∈ m -> qualifies h (k, r) = true ->
  sanitize k = "earliest_totals"%string ->
  let evs := events (reorderAndSaveGroupedFiles rt m h) in
  groupReportPath k = earliestPath /\
  (exists earliest fs, WriteFile earliestPath (GroupReport k earliest fs) ∈ evs) /\
  exists out, lastWrite earliestPath evs = Some (EarliestReport out).
Proof.
  intros Hio Hnd Hin Hq Hsan evs.
  assert (Hpath : groupReportPath k = earliestPath).
  { unfold groupReportPath. by rewrite Hsan. }
  destruct (reorderAndSave_complete rt m h Hio Hnd) as [Hev _]. fold evs in Hev.
  pose proof (qualifyingGroups_nonempty h m (k, r) Hin Hq) as HQ. simpl in HQ.
  split; [done|]. split.
  - exists (findEarliestDateInGroup (deref h r)), (sort (compareNames rt) (deref h r)).
    rewrite Hev, <- Hpath, !elem_of_app. right. left.
    apply list_elem_of_In, in_map_iff. exists (k, deref h r).
    split; [done | by apply list_elem_of_In].
  - destruct (qualifyingGroups h (sortedGroupEntries h m)) as [|g Q] eqn:EQ;
      [by apply elem_of_nil in HQ|].
    eexists. rewrite Hev.
    match goal with |- context [[?a; ?b; ?c]] => change [a; b; c] with ([a; b] ++ [c]) end.
    rewrite !app_assoc. apply lastWrite_snoc.
Qed.

Lemma summary_overwrites_colliding_report_witness :
  let files := [mkFileInfo "earliest_totals.1.js" (Some 10);
                mkFileInfo "earliest_totals.2.js" (Some 20);
                mkFileInfo "earliest_totals.3.js" (Some 30)] in
  let evs := events (reorderAndSaveGroupedFiles sampleRuntime
                       [("earliest_totals"%string, 0%nat)] [files]) in
  getGroupKey "earliest_totals.1.js" = "earliest_totals"%string /\
  WriteFile earliestPath (GroupReport "earliest_totals" (Some 10) files) ∈ evs /\
  lastWrite earliestPath evs = Some (EarliestReport [mkFileInfo "earliest_totals.1.js" (Some 10)]).
Proof.
  intros files evs.
  assert (Hio : ioSucceeds sampleRuntime) by (split; [by left | reflexivity]).
  assert (Hnd : NoDup [("earliest_totals"%string, 0%nat)].*2)
    by (apply (bool_decide_unpack _); vm_compute; exact I).
  assert (Hin : ("earliest_totals"%string, 0%nat) ∈ [("earliest_totals"%string, 0%nat)])
    by left.
  destruct (summary_overwrites_colliding_report sampleRuntime
              [("earliest_totals"%string, 0%nat)] [files] "earliest_totals" 0%nat
              Hio Hnd Hin eq_refl eq_refl) as (_ & _ & out & Hlast).
  split; [reflexivity|]. split; [vm_compute; left|].
  fold evs in Hlast. rewrite Hlast. vm_compute in Hlast. by injection Hlast as <-.
Defined.

(** ** More on deletion *)

Section RemoverComposition.
Context {Service : Type} (blobDelete : string -> string -> Service -> Service * bool).

Lemma removalLog_outcomes containerName files svc :
  loggedDeleted (removalLog Service blobDelete containerName files svc) ++
  loggedErrors (removalLog Service blobDelete containerName files svc) ≡ₚ files.
Proof.
  revert svc. induction files as [|file rest IH]; intros svc; simpl; [done|].
  destruct (blobDelete containerName file svc) as [svc' ok]. simpl.
  destruct ok; simpl.
  - by rewrite IH.
  - rewrite <- Permutation_middle. by rewrite IH.
Qed.

Lemma removalLog_all_succeed containerName files svc :
  (forall file s, (blobDelete containerName file s).2 = true) ->
  loggedErrors (removalLog Service blobDelete containerName files svc) = [] /\
  loggedDeleted (removalLog Service blobDelete containerName files svc) = files.
Proof.
  intros Hok. revert svc. induction files as [|file rest IH]; intros svc; simpl; [done|].
  specialize (Hok file svc).
  destruct (blobDelete containerName file svc) as [svc' ok]. simpl in *. subst ok.
  simpl. destruct (IH svc') as [-> ->]. done.
Qed.
End RemoverComposition.

(** X18.  Removing a list made of two parts is removing the first part
    and then, on the service as that leaves it, the second: the lines
    printed are those of the first run followed by those of the second. *)
Theorem remove_concatenation (Service : Type)
    (blobDelete : string -> string -> Service -> Service * bool)
    (containerName : string) (first second : list string) (svc : Service) :
  let r1 := removeAzFilesFromContainer Service blobDelete containerName first svc in
  let r2 := removeAzFilesFromContainer Service blobDelete containerName second r1.1 in
  removeAzFilesFromContainer Service blobDelete containerName (first ++ second) svc =
  (r2.1, r1.2 ++ r2.2).
Proof.
  intros r1 r2. subst r1 r2. unfold removeAzFilesFromContainer.
  rewrite foldl_app, !remove_foldl. simpl. done.
Qed.

(** X19.  Every name gets exactly one outcome line, "deleted" or
    "error": the names reported deleted together with the names reported
    failed are the names given, a name given twice being reported twice;
    when no deletion throws, all are reported deleted, in order. *)
Theorem remove_reports_each_outcome_once (Service : Type)
    (blobDelete : string -> string -> Service -> Service * bool)
    (containerName : string) (azFiles : list string) (svc : Service) :
  let out := (removeAzFilesFromContainer Service blobDelete containerName azFiles svc).2 in
  loggedDeleted out ++ loggedErrors out ≡ₚ azFiles /\
  (length (loggedDeleted out) + length (loggedErrors out) = length azFiles)%nat /\
  ((forall file s, (blobDelete containerName file s).2 = true) ->
   loggedErrors out = [] /\ loggedDeleted out = azFiles).
Proof.
  intros out. subst out. unfold removeAzFilesFromContainer.
  rewrite remove_foldl. simpl.
  pose proof (removalLog_outcomes blobDelete containerName azFiles svc) as Hp.
  split; [done|]. split; [by rewrite <- length_app, Hp|].
  apply removalLog_all_succeed.
Qed.

(** ** The lister *)

Lemma listStep_foldl yielded out n :
  foldl listStep (out, n) yielded =
  (out ++ ((fun b => FileLine (blob_name b)) <$> yielded), (n + length yielded)%nat).
Proof.
  revert out n. induction yielded as [|b rest IH]; intros out n; simpl.
  - by rewrite app_nil_r, Nat.add_0_r.
  - unfold listStep at 2. simpl. rewrite IH, <- app_assoc. simpl.
    by rewrite Nat.add_succ_r.
Qed.

Lemma printedNames_app out1 out2 :
  printedNames (out1 ++ out2) = printedNames out1 ++ printedNames out2.
Proof. apply flat_map_app. Qed.

Lemma printedNames_fileLines (yielded : list BlobItem) :
  printedNames ((fun b => FileLine (blob_name b)) <$> yielded) = blob_name <$> yielded.
Proof.
  induction yielded as [|b rest IH]; [done|].
  rewrite !fmap_cons. change (printedNames (FileLine (blob_name b) :: ?l))
    with (blob_name b :: printedNames l). by rewrite <- IH.
Qed.

(** X20.  With a valid configuration and an existing container the
    lister prints the name of every blob the listing yields, nested ones
    included, in listing order.  When the listing ends, it then prints the
    count, which is the total the grouping program counts on the same
    listing, or that no file was found; when the listing throws, it prints
    the error instead and no count. *)
Theorem lister_prints_every_blob (connectionString containerName : option string)
    (yielded : list BlobItem) (throws : bool) :
  truthy connectionString = true -> truthy containerName = true ->
  let out := listContainerFiles connectionString containerName (Some true) yielded throws in
  printedNames out = blob_name <$> yielded /\
  (throws = false ->
   out = ((fun b => FileLine (blob_name b)) <$> yielded) ++
         [if (length yielded =? 0)%nat then NoFilesFound
          else TotalFilesListed (totalFilesConsidered (groupLoop yielded));
          ListingComplete]) /\
  (throws = true ->
   out = ((fun b => FileLine (blob_name b)) <$> yielded) ++ [UnexpectedError]).
Proof.
  intros Hcs Hcn out. subst out. unfold listContainerFiles.
  rewrite Hcs, Hcn. simpl. rewrite listStep_foldl. simpl.
  destruct (groupLoop_inv yielded) as (-> & _).
  destruct throws.
  - split; [|split; [done | done]].
    rewrite printedNames_app, printedNames_fileLines. simpl. by rewrite app_nil_r.
  - split; [|split; [done | done]].
    rewrite printedNames_app, printedNames_fileLines.
    destruct (length yielded =? 0)%nat; simpl; by rewrite app_nil_r.
Qed.

Lemma lister_prints_every_blob_witness :
  listContainerFiles (Some "UseDevelopmentStorage=true"%string) (Some "assets"%string)
    (Some true) [mkBlobItem "app.1.js" None; mkBlobItem "img/logo.png" None] false =
  [FileLine "app.1.js"; FileLine "img/logo.png"; TotalFilesListed 2; ListingComplete].
Proof.
  destruct (lister_prints_every_blob (Some "UseDevelopmentStorage=true"%string)
              (Some "assets"%string)
              [mkBlobItem "app.1.js" None; mkBlobItem "img/logo.png" None] false
              eq_refl eq_refl) as (_ & Hout & _).
  rewrite (Hout eq_refl). reflexivity.
Defined.
